(** * Tanka: reconciliation engine (package [kubernetes]) and resource
      identity (package [manifest])

    A shallow embedding of [pkg/kubernetes/manifest/identifier.go] and of the
    [Kubernetes] facade ([New], [Apply], [Diff], [listOrphaned],
    [parallelGetByLabels]), followed by the properties established about
    them.

    Go values are rendered as follows.
    - [string] is [string]; a map is a [gmap]; a slice is a [list], and a
      slice-typed result that can be [nil] is an [option (list _)].
    - A Go result [(T, error)] is the pair [(T * option error)]; [None] in the
      second component is the [nil] error.
    - A goroutine is a small program counter; channels are unbuffered, so a
      send and the matching receive are one step of the whole system, chosen
      by a schedule. *)

From Stdlib Require Import ZArith Lia.
From stdpp Require Import base option gmap strings countable list.

Local Open Scope string_scope.
Local Open Scope list_scope.
Local Open Scope nat_scope.

(** ** Errors ([error], [github.com/pkg/errors]) *)

Inductive error : Type :=
| ErrorString (msg : string)
| Wrapped (cause : error) (msg : string).

(** [errors.Wrap(err, msg)] for a non-nil [err]. *)
Definition errors_Wrap (err : error) (msg : string) : error := Wrapped err msg.

(** ** Package [manifest] *)

Module manifest.

(** An Identifier can be used to uniquely identify a Manifest. *)
Record Identifier : Type := mkIdentifier {
  Kind : string;
  Name : string;
  Namespace : string
}.

(** Modelled from the spec: the metadata of a manifest (the type
    [manifest.Metadata] and its accessors [Name()], [Namespace()] are
    declared in other files).  The spec lists a name, a namespace and a
    mapping of labels; the resource version stands for the server-managed
    part. *)
Record Metadata : Type := mkMetadata {
  meta_name : string;
  meta_namespace : string;
  meta_labels : gmap string string;
  meta_resourceVersion : string
}.

(** Modelled from the spec: a manifest (the type [manifest.Manifest] and its
    accessors [Kind()], [Metadata()] are declared in other files): a kind,
    the metadata, and an opaque body that this package never interprets. *)
Record Manifest : Type := mkManifest {
  m_kind : string;
  m_metadata : Metadata;
  m_body : string
}.

(** [manifest.List] *)
Abbreviation List := (list Manifest).

(** [func (m Manifest) Identifier() Identifier] *)
Definition Manifest_Identifier (m : Manifest) : Identifier :=
  {| Kind := m_kind m;
     Name := meta_name (m_metadata m);
     Namespace := meta_namespace (m_metadata m) |}.

#[global] Instance Identifier_eq_dec : EqDecision Identifier.
Proof. solve_decision. Defined.

Definition Identifier_to_tuple (i : Identifier) : string * string * string :=
  (Kind i, Name i, Namespace i).

Definition Identifier_of_tuple (t : string * string * string) : Identifier :=
  let '(k, n, ns) := t in mkIdentifier k n ns.

#[global] Instance Identifier_countable : Countable Identifier.
Proof.
  apply (inj_countable' Identifier_to_tuple Identifier_of_tuple).
  by intros [].
Defined.

End manifest.

(** ** Package [semver] ([github.com/Masterminds/semver]) *)

Module semver.

(** [semver.Version]: three numeric segments, the prerelease tag and the
    build metadata. *)
Record Version : Type := mkVersion {
  major : Z;
  minor : Z;
  patch : Z;
  pre : string;
  metadata : string
}.

(** The library's ordering of two non-empty prerelease tags
    ([comparePrerelease]); it is internal to the library and taken as
    given. *)
Class PrereleaseOrder : Type := comparePrerelease : string → string → Z.

Definition compareSegment (v o : Z) : Z :=
  if (v <? o)%Z then (-1)%Z else if (o <? v)%Z then 1%Z else 0%Z.

(** [func (v *Version) Compare(o *Version) int] *)
Definition Compare `{PrereleaseOrder} (v o : Version) : Z :=
  let d := compareSegment (major v) (major o) in
  if negb (d =? 0)%Z then d else
  let d := compareSegment (minor v) (minor o) in
  if negb (d =? 0)%Z then d else
  let d := compareSegment (patch v) (patch o) in
  if negb (d =? 0)%Z then d else
  let ps := pre v in
  let po := pre o in
  if bool_decide (ps = "") && bool_decide (po = "") then 0%Z
  else if bool_decide (ps = "") then 1%Z
  else if bool_decide (po = "") then (-1)%Z
  else comparePrerelease ps po.

(** [func (v *Version) LessThan(o *Version) bool] *)
Definition LessThan `{PrereleaseOrder} (v o : Version) : bool :=
  (Compare v o <? 0)%Z.

(** [semver.MustParse("1.13.0")] *)
Definition v1_13_0 : Version := mkVersion 1 13 0 "" "".

End semver.

(** ** Package [v1alpha1]: the environment configuration *)

Module v1alpha1.

(** Modelled from the spec: the environment metadata (declared in other
    files); [NameLabel] is the value that [Metadata.NameLabel()] yields, the
    environment's name label. *)
Record Metadata : Type := mkMetadata {
  Name : string;
  NameLabel : string
}.

(** Modelled from the spec: the environment specification (declared in
    other files): API server locator, target namespace, optional
    diff-strategy name. *)
Record Spec : Type := mkSpec {
  APIServer : string;
  Namespace : string;
  DiffStrategy : string
}.

Record Config : Type := mkConfig {
  Config_Metadata : Metadata;
  Config_Spec : Spec
}.

End v1alpha1.

(** ** Package [client]: the cluster client interface *)

Module client.

(** Modelled from the spec: the cluster information snapshot (declared in
    other files): server version, cluster name and API server URL, active
    context name. *)
Record Info : Type := mkInfo {
  ServerVersion : semver.Version;
  Cluster_name : string;
  Cluster_server : string;
  Context_name : string
}.

(** Modelled from the spec: the options of the mutating call (declared in
    other files). *)
Record ApplyOpts : Type := mkApplyOpts {
  AutoApprove : bool
}.

(** The [client.Client] interface, as far as the engine calls it.  A nil
    slice and an empty slice are ranged over alike, so a returned
    [manifest.List] is a plain list. *)
Record Client : Type := mkClient {
  Client_Info : Info * option error;
  GetByLabels : string → string → gmap string string →
                manifest.List * option error;
  DiffServerSide : manifest.List → option string * option error;
  Client_Apply : manifest.List → ApplyOpts → option error
}.

End client.

(** ** Package [kubernetes] *)

Module kubernetes.

Import manifest.

(** What a Go call does: it returns a value or it panics. *)
Inductive outcome (A : Type) : Type :=
| Returns (a : A)
| Panics (reason : string).
Arguments Returns {A} a.
Arguments Panics {A} reason.

(** Differ is responsible for comparing the given manifests to the cluster
    and returning differences (if any) in [diff(1)] format. *)
Abbreviation Differ := (manifest.List → option string * option error).

(** The text of the confirmation that the apply flow would show; the four
    values are the ones interpolated by [fmt.Sprintf]. *)
Record Prompt : Type := mkPrompt {
  prompt_namespace : string;
  prompt_cluster : string;
  prompt_server : string;
  prompt_context : string
}.

(** Functions and constants of other packages and files that the engine
    calls: the label key [LabelEnvironment], [client.New], [SubsetDiffer],
    [util.Diffstat] and [cli.Confirm]. *)
Class Externals : Type := mkExternals {
  ext_prerelease :: semver.PrereleaseOrder;
  LabelEnvironment : string;
  client_New : string → client.Client * option error;
  SubsetDiffer : client.Client → Differ;
  util_Diffstat : string → option string * option error;
  cli_Confirm : Prompt → string → option error
}.

(** Kubernetes exposes methods to work with the Kubernetes orchestrator. *)
Record Kubernetes : Type := mkKubernetes {
  Env : v1alpha1.Config;
  ctl : client.Client;
  info : client.Info;
  differs : gmap string Differ
}.

Definition with_DiffStrategy (c : v1alpha1.Config) (name : string)
  : v1alpha1.Config :=
  v1alpha1.mkConfig (v1alpha1.Config_Metadata c)
    (v1alpha1.mkSpec (v1alpha1.APIServer (v1alpha1.Config_Spec c))
                     (v1alpha1.Namespace (v1alpha1.Config_Spec c))
                     name).

(** [func New(c v1alpha1.Config)], returning a [*Kubernetes] and an
    [error]. *)
Definition New `{Externals} (c : v1alpha1.Config)
  : option Kubernetes * option error :=
  let '(ctl, err) := client_New (v1alpha1.APIServer (v1alpha1.Config_Spec c)) in
  match err with
  | Some err => (None, Some (errors_Wrap err "creating client"))
  | None =>
    let '(info, err) := client.Client_Info ctl in
    match err with
    | Some err => (None, Some err)
    | None =>
      let c :=
        if bool_decide (v1alpha1.DiffStrategy (v1alpha1.Config_Spec c) = "")
        then
          let c := with_DiffStrategy c "native" in
          if semver.LessThan (client.ServerVersion info) semver.v1_13_0
          then with_DiffStrategy c "subset"
          else c
        else c in
      (Some {| Env := c;
               ctl := ctl;
               info := info;
               differs := <["subset" := SubsetDiffer ctl]>
                            (<["native" := client.DiffServerSide ctl]> ∅) |},
       None)
    end
  end.

(** DiffOpts allow to specify additional parameters for diff operations. *)
Record DiffOpts : Type := mkDiffOpts {
  Summarize : bool;
  Strategy : string
}.

(** The strategy name [Diff] looks up: the per-call one unless it is
    empty. *)
Definition Diff_strategy (k : Kubernetes) (opts : DiffOpts) : string :=
  let strategy := v1alpha1.DiffStrategy (v1alpha1.Config_Spec (Env k)) in
  if bool_decide (Strategy opts ≠ "") then Strategy opts else strategy.

(** [func (k *Kubernetes) Diff(state manifest.List, opts DiffOpts)],
    returning a [*string] and an [error].
    Indexing the map with an absent key yields the nil function value, and
    calling it panics. *)
Definition Diff `{Externals} (k : Kubernetes) (state : manifest.List)
    (opts : DiffOpts) : outcome (option string * option error) :=
  let strategy := Diff_strategy k opts in
  match differs k !! strategy with
  | None => Panics "invalid memory address or nil pointer dereference"
  | Some differ =>
    let '(d, err) := differ state in
    match err, d with
    | Some err, _ => Returns (None, Some err)
    | None, None => Returns (None, None)
    | None, Some d =>
      if Summarize opts then Returns (util_Diffstat d)
      else Returns (Some d, None)
    end
  end.

(** [func (k *Kubernetes) Info() client.Info] *)
Definition Info (k : Kubernetes) : client.Info := info k.

(** [func objectspec(m manifest.Manifest) string]:
    [fmt.Sprintf("%s/%s", m.Kind(), m.Metadata().Name())] *)
Definition objectspec (m : manifest.Manifest) : string :=
  m_kind m ++ "/" ++ meta_name (m_metadata m).

(** *** Orphan detection: [listOrphaned] and [parallelGetByLabels] *)

(** The catalog of kinds that [listOrphaned] scans. *)
Definition kinds : list string :=
  [ "ConfigMap"; "Endpoints"; "Namespace"; "PersistentVolumeClaim";
    "PersistentVolume"; "Pod"; "ReplicationController"; "Secret";
    "ServiceAccount"; "Service";
    "DaemonSet"; "Deployment"; "ReplicaSet"; "StatefulSet";
    "Job"; "CronJob";
    "Ingress";
    "ClusterRole"; "ClusterRoleBinding"; "Role"; "RoleBinding" ].

(** [known := make(map[manifest.Identifier]bool)] filled by the first loop. *)
Definition known_of (state : manifest.List) : gmap Identifier bool :=
  foldl (λ known m, <[Manifest_Identifier m := true]> known) ∅ state.

(** [known[id]]: an absent key reads as [false]. *)
Definition known_at (known : gmap Identifier bool) (id : Identifier) : bool :=
  default false (known !! id).

(** The inner loop over one received list: skip the known manifests, append
    the others. *)
Definition collect (known : gmap Identifier bool)
    (orphaned list : manifest.List) : manifest.List :=
  foldl (λ orphaned m,
           if known_at known (Manifest_Identifier m) then orphaned
           else orphaned ++ [m])
        orphaned list.

(** What [fmt.Println] writes, by the value printed. *)
Inductive output : Type :=
| OutKnown (known : gmap Identifier bool)
| OutLine (line : string)
| OutIdentifier (id : Identifier).

(** One [GetByLabels] call, by its three arguments. *)
Record Call : Type := mkCall {
  call_namespace : string;
  call_kind : string;
  call_labels : gmap string string
}.

(** Where a [parallelGetByLabels] goroutine stands: before its query, blocked
    on [e <- ...], blocked on [r <- list], returned, or dead from a send on a
    closed channel. *)
Inductive pc : Type :=
| AtQuery
| AtSendErr (list : manifest.List) (err : error)
| AtSendList (list : manifest.List)
| Finished
| Panicked.

Record goroutine : Type := mkGoroutine {
  g_kind : string;
  g_envName : string;
  g_pc : pc
}.

(** [errors.Wrapf(err, "getting orphans of kind '%s':", kind)] *)
Definition wrap_kind (err : error) (kind : string) : error :=
  Wrapped err ("getting orphans of kind '" ++ kind ++ "':").

Definition query_of `{Externals} (kind envName : string) : Call :=
  mkCall "" kind {[ LabelEnvironment := envName ]}.

(** [parallelGetByLabels] up to its first send: the query, then the test of
    [err].  After the send on [e] the goroutine goes on to the send on [r]
    (there is no [return] in the [if]). *)
Definition parallelGetByLabels `{Externals} (k : Kubernetes)
    (kind envName : string) : pc :=
  let '(list, err) :=
    client.GetByLabels (ctl k) "" kind {[ LabelEnvironment := envName ]} in
  match err with
  | Some err => AtSendErr list (wrap_kind err kind)
  | None => AtSendList list
  end.

(** The whole call: the goroutines, the queries made so far, what was
    printed, and the locals of [listOrphaned]; [result] is set when the
    function has closed both channels and returned. *)
Record system : Type := mkSystem {
  goroutines : list goroutine;
  calls : list Call;
  stdout : list output;
  loop_i : nat;
  orphaned : manifest.List;
  lastErr : option error;
  result : option (option manifest.List * option error);
  crashed : bool
}.

(** [listOrphaned] up to the end of the [go] loop. *)
Definition spawn (k : Kubernetes) (state : manifest.List) : system :=
  {| goroutines :=
       (λ kind, mkGoroutine kind
                  (v1alpha1.NameLabel (v1alpha1.Config_Metadata (Env k)))
                  AtQuery) <$> kinds;
     calls := [];
     stdout := [OutKnown (known_of state); OutLine "----"];
     loop_i := 0;
     orphaned := [];
     lastErr := None;
     result := None;
     crashed := false |}.

(** What the scheduler may pick next. *)
Inductive action : Type :=
| Query (j : nat)      (* goroutine [j] performs its [GetByLabels] call *)
| RecvR (j : nat)      (* [case list := <-r], sender goroutine [j] *)
| RecvE (j : nat)      (* [case err := <-e], sender goroutine [j] *)
| Return               (* loop exit, [close(r)], [close(e)], [return] *)
| SendClosed (j : nat) (* goroutine [j] sends on a closed channel *).

Definition set_pc (g : goroutine) (p : pc) : goroutine :=
  mkGoroutine (g_kind g) (g_envName g) p.

Definition in_loop (s : system) : bool :=
  bool_decide (result s = None) && bool_decide (loop_i s < length kinds).

Definition step `{Externals} (k : Kubernetes) (known : gmap Identifier bool)
    (a : action) (s : system) : option system :=
  if crashed s then None else
  match a with
  | Query j =>
    g ← goroutines s !! j;
    match g_pc g with
    | AtQuery =>
      let pc' := parallelGetByLabels k (g_kind g) (g_envName g) in
      Some {| goroutines := <[j := set_pc g pc']> (goroutines s);
              calls := calls s ++ [query_of (g_kind g) (g_envName g)];
              stdout := stdout s; loop_i := loop_i s;
              orphaned := orphaned s; lastErr := lastErr s;
              result := result s; crashed := false |}
    | _ => None
    end
  | RecvR j =>
    g ← goroutines s !! j;
    match g_pc g with
    | AtSendList list =>
      if in_loop s then
        Some {| goroutines := <[j := set_pc g Finished]> (goroutines s);
                calls := calls s;
                stdout := stdout s
                          ++ (OutIdentifier ∘ Manifest_Identifier <$> list);
                loop_i := S (loop_i s);
                orphaned := collect known (orphaned s) list;
                lastErr := lastErr s;
                result := None; crashed := false |}
      else None
    | _ => None
    end
  | RecvE j =>
    g ← goroutines s !! j;
    match g_pc g with
    | AtSendErr list err =>
      if in_loop s then
        Some {| goroutines :=
                  <[j := set_pc g (AtSendList list)]> (goroutines s);
                calls := calls s; stdout := stdout s;
                loop_i := S (loop_i s);
                orphaned := orphaned s;
                lastErr := Some err;
                result := None; crashed := false |}
      else None
    | _ => None
    end
  | Return =>
    if bool_decide (result s = None)
       && negb (bool_decide (loop_i s < length kinds))
    then
      Some {| goroutines := goroutines s; calls := calls s; stdout := stdout s;
              loop_i := loop_i s; orphaned := orphaned s; lastErr := lastErr s;
              result := Some match lastErr s with
                             | Some err => (None, Some err)
                             | None => (Some (orphaned s), None)
                             end;
              crashed := false |}
    else None
  | SendClosed j =>
    g ← goroutines s !! j;
    match g_pc g, result s with
    | (AtSendErr _ _ | AtSendList _), Some res =>
      Some {| goroutines := <[j := set_pc g Panicked]> (goroutines s);
              calls := calls s; stdout := stdout s;
              loop_i := loop_i s; orphaned := orphaned s; lastErr := lastErr s;
              result := Some res; crashed := true |}
    | _, _ => None
    end
  end.

(** A schedule, run from a state; [None] when it picks a step that cannot be
    taken. *)
Fixpoint run `{Externals} (k : Kubernetes) (known : gmap Identifier bool)
    (sched : list action) (s : system) : option system :=
  match sched with
  | [] => Some s
  | a :: sched => s' ← step k known a s; run k known sched s'
  end.

(** [func (k *Kubernetes) listOrphaned(state manifest.List)], returning a
    [manifest.List] and an [error], under a schedule: [None] when the
    schedule is not one of the call or stops before the function returns. *)
Definition listOrphaned `{Externals} (k : Kubernetes) (state : manifest.List)
    (sched : list action) : option (option manifest.List * option error) :=
  s ← run k (known_of state) sched (spawn k state); result s.

(** *** [Apply] *)

(** ApplyOpts allow set additional parameters for the apply operation. *)
Abbreviation ApplyOpts := client.ApplyOpts.

(** What [Apply] does to the world, in order. *)
Inductive effect : Type :=
| Print (o : output)
| Confirm (p : Prompt) (expected : string)
| Mutate (state : manifest.List) (opts : ApplyOpts).

(** [func (k *Kubernetes) Apply(state manifest.List, opts ApplyOpts) error];
    the first branch is the one under [if false]. *)
Definition Apply `{Externals} (k : Kubernetes) (state : manifest.List)
    (opts : ApplyOpts) (sched : list action)
  : option (list effect * option error) :=
  if false then
    let '(info, err) := client.Client_Info (ctl k) in
    match err with
    | Some err => Some ([], Some err)
    | None =>
      let prompt :=
        mkPrompt (v1alpha1.Namespace (v1alpha1.Config_Spec (Env k)))
                 (client.Cluster_name info) (client.Cluster_server info)
                 (client.Context_name info) in
      let asked := if negb (client.AutoApprove opts)
                   then [Confirm prompt "yes"] else [] in
      let refused := if negb (client.AutoApprove opts)
                     then cli_Confirm prompt "yes" else None in
      match refused with
      | Some err => Some (asked, Some err)
      | None => Some (asked ++ [Mutate state opts],
                      client.Client_Apply (ctl k) state opts)
      end
    end
  else
    s ← run k (known_of state) sched (spawn k state);
    res ← result s;
    let printed := Print <$> stdout s in
    match res with
    | (_, Some err) => Some (printed, Some err)
    | (list, None) =>
      Some (printed ++ Print (OutLine "orphan")
                    :: (Print ∘ OutIdentifier ∘ Manifest_Identifier
                          <$> default [] list),
            None)
    end.

End kubernetes.

(** * Notions used to state the properties *)

Import manifest kubernetes.

(** The spec's order, "V < 1.13.0" by semantic-version precedence: the
    numeric triple is compared segment by segment, and a prerelease of
    1.13.0 precedes 1.13.0 itself. *)
Definition precedes_1_13_0 (v : semver.Version) : Prop :=
  (semver.major v < 1)%Z ∨
  (semver.major v = 1 ∧ semver.minor v < 13)%Z ∨
  (semver.major v = 1 ∧ semver.minor v = 13 ∧ semver.patch v < 0)%Z ∨
  (semver.major v = 1%Z ∧ semver.minor v = 13%Z ∧ semver.patch v = 0%Z ∧
   semver.pre v ≠ "").

(** [k.Env.Metadata.NameLabel()] *)
Definition envName (k : Kubernetes) : string :=
  v1alpha1.NameLabel (v1alpha1.Config_Metadata (Env k)).

(** What the cluster answers to the query that [listOrphaned] makes for a
    kind. *)
Definition answer `{Externals} (k : Kubernetes) (kind : string)
  : manifest.List * option error :=
  client.GetByLabels (ctl k) "" kind {[ LabelEnvironment := envName k ]}.

(** The query for a kind fails. *)
Definition fails `{Externals} (k : Kubernetes) (kind : string) : Prop :=
  is_Some (answer k kind).2.

(** [e] is the failure of the query for [kind], wrapped with the kind. *)
Definition reported `{Externals} (k : Kubernetes) (kind : string) (e : error)
  : Prop :=
  ∃ e0, (answer k kind).2 = Some e0 ∧ e = wrap_kind e0 kind.

(** The live manifests L: everything the per-kind queries return, in catalog
    order. *)
Definition live `{Externals} (k : Kubernetes) : manifest.List :=
  concat ((λ kind, (answer k kind).1) <$> kinds).

(** L \ D by identity: the live manifests whose Identifier is not that of a
    manifest of the desired state. *)
Definition difference (L D : manifest.List) : manifest.List :=
  filter (λ m, Manifest_Identifier m ∉ Manifest_Identifier <$> D) L.

(** The errors that the collecting loop receives on [e] along a schedule, in
    order of arrival. *)
Fixpoint observed `{Externals} (k : Kubernetes) (known : gmap Identifier bool)
    (sched : list action) (s : system) : list error :=
  match sched with
  | [] => []
  | a :: sched =>
    match step k known a s with
    | None => []
    | Some s' =>
      match a with
      | RecvE j =>
        match g_pc <$> goroutines s !! j with
        | Some (AtSendErr _ err) => [err]
        | _ => []
        end
      | _ => []
      end ++ observed k known sched s'
    end
  end.

(** The messages a goroutine has handed over, counted per channel. *)
Fixpoint sent_on_e `{Externals} (k : Kubernetes) (known : gmap Identifier bool)
    (j : nat) (sched : list action) (s : system) : nat :=
  match sched with
  | [] => 0
  | a :: sched =>
    match step k known a s with
    | None => 0
    | Some s' =>
      match a with
      | RecvE j' => if bool_decide (j' = j) then 1 else 0
      | _ => 0
      end
      + sent_on_e k known j sched s'
    end
  end.

Fixpoint sent_on_r `{Externals} (k : Kubernetes) (known : gmap Identifier bool)
    (j : nat) (sched : list action) (s : system) : nat :=
  match sched with
  | [] => 0
  | a :: sched =>
    match step k known a s with
    | None => 0
    | Some s' =>
      match a with
      | RecvR j' => if bool_decide (j' = j) then 1 else 0
      | _ => 0
      end
      + sent_on_r k known j sched s'
    end
  end.

(** A goroutine has made its query. *)
Definition started (g : goroutine) : Prop := g_pc g ≠ AtQuery.

#[global] Instance started_dec g : Decision (started g).
Proof.
  unfold started. destruct (g_pc g); (by left) || (right; by intros []).
Defined.

(** A goroutine has handed over its error. *)
Definition past_error (p : pc) : Prop :=
  match p with
  | AtQuery | AtSendErr _ _ => False
  | _ => True
  end.

(** The position of a goroutine agrees with the answer to its query. *)
Definition pc_ok `{Externals} (k : Kubernetes) (g : goroutine) : Prop :=
  match g_pc g with
  | AtSendErr l e =>
    (answer k (g_kind g)).1 = l ∧ reported k (g_kind g) e
  | AtSendList l => (answer k (g_kind g)).1 = l
  | _ => True
  end.

(** The number of receives of the loop that a goroutine accounts for. *)
Definition delivered `{Externals} (k : Kubernetes) (g : goroutine) : nat :=
  match g_pc g with
  | AtSendList _ => if decide (fails k (g_kind g)) then 1 else 0
  | Finished => if decide (fails k (g_kind g)) then 2 else 1
  | _ => 0
  end.

(** The orphans a goroutine accounts for. *)
Definition contributed `{Externals} (k : Kubernetes)
    (known : gmap Identifier bool) (g : goroutine) : manifest.List :=
  match g_pc g with
  | Finished =>
    filter (λ m, known_at known (Manifest_Identifier m) = false)
           (answer k (g_kind g)).1
  | _ => []
  end.

(** The steps a goroutine can still take part in. *)
Definition remaining (g : goroutine) : nat :=
  match g_pc g with
  | AtQuery => 3
  | AtSendErr _ _ => 2
  | AtSendList _ => 1
  | _ => 0
  end.

(** What holds while [listOrphaned] is in its collecting loop. *)
Record loop_inv `{Externals} (k : Kubernetes) (known : gmap Identifier bool)
    (s : system) : Prop := mkLoopInv {
  loop_alive : crashed s = false;
  loop_count : loop_i s = sum_list_with (delivered k) (goroutines s);
  loop_bound : loop_i s ≤ length kinds;
  loop_orphaned :
    orphaned s ≡ₚ concat (contributed k known <$> goroutines s);
  loop_no_error :
    lastErr s = None →
    Forall (λ g, fails k (g_kind g) → ¬ past_error (g_pc g)) (goroutines s);
  loop_error :
    ∀ e, lastErr s = Some e → ∃ kind, kind ∈ kinds ∧ reported k kind e;
  loop_no_panic : Forall (λ g, g_pc g ≠ Panicked) (goroutines s)
}.

(** What holds of the state and the result once [listOrphaned] has
    returned. *)
Record final `{Externals} (k : Kubernetes) (state : manifest.List)
    (s : system) (res : option manifest.List * option error) : Prop := mkFinal {
  final_success :
    (∀ kind, kind ∈ kinds → ¬ fails k kind) →
    Forall started (goroutines s) ∧
    ∃ o, res = (Some o, None) ∧ o ≡ₚ difference (live k) state;
  final_failure :
    (∃ kind, kind ∈ kinds ∧ fails k kind) →
    ∃ e kind, res = (None, Some e) ∧ kind ∈ kinds ∧ reported k kind e
}.

(** What holds in every state of a call. *)
Record inv `{Externals} (k : Kubernetes) (state : manifest.List)
    (s : system) : Prop := mkInv {
  inv_kinds : g_kind <$> goroutines s = kinds;
  inv_env : Forall (λ g, g_envName g = envName k) (goroutines s);
  inv_pc : Forall (pc_ok k) (goroutines s);
  inv_calls :
    calls s ≡ₚ (λ g, query_of (g_kind g) (g_envName g))
                 <$> filter started (goroutines s);
  inv_loop : result s = None → loop_inv k (known_of state) s;
  inv_final : ∀ res, result s = Some res → final k state s res
}.

(** The steps that can still happen before [listOrphaned] has returned. *)
Definition measure (s : system) : nat :=
  sum_list_with remaining (goroutines s)
  + match result s with None => 1 | Some _ => 0 end.

(** ** Further notions *)

(** A string holds the character [/]. *)
Fixpoint has_slash (s : string) : bool :=
  match s with
  | EmptyString => false
  | String a s => bool_decide (String a EmptyString = "/") || has_slash s
  end.

(** The lists that the collecting loop receives on [r] along a schedule, in
    order of arrival. *)
Fixpoint received `{Externals} (k : Kubernetes) (known : gmap Identifier bool)
    (sched : list action) (s : system) : list manifest.List :=
  match sched with
  | [] => []
  | a :: sched =>
    match step k known a s with
    | None => []
    | Some s' =>
      match a with
      | RecvR j =>
        match g_pc <$> goroutines s !! j with
        | Some (AtSendList list) => [list]
        | _ => []
        end
      | _ => []
      end ++ received k known sched s'
    end
  end.

(** A goroutine still has a send to make. *)
Definition pending (g : goroutine) : Prop :=
  match g_pc g with
  | AtQuery | AtSendErr _ _ | AtSendList _ => True
  | _ => False
  end.

(** What [Diff] makes of the pair a strategy returns, without summary. *)
Definition plain (r : option string * option error)
  : option string * option error :=
  match r with
  | (_, Some err) => (None, Some err)
  | (d, None) => (d, None)
  end.

#[global] Instance pending_dec g : Decision (pending g).
Proof. unfold pending. destruct (g_pc g); apply _. Defined.

(** The kinds whose lists the collecting loop receives along a schedule, in
    order of arrival. *)
Fixpoint arrivals `{Externals} (k : Kubernetes) (known : gmap Identifier bool)
    (sched : list action) (s : system) : list string :=
  match sched with
  | [] => []
  | a :: sched =>
    match step k known a s with
    | None => []
    | Some s' =>
      match a with
      | RecvR j =>
        match goroutines s !! j with
        | Some g => [g_kind g]
        | None => []
        end
      | _ => []
      end ++ arrivals k known sched s'
    end
  end.

(** A goroutine has returned. *)
Definition finished (g : goroutine) : Prop :=
  match g_pc g with Finished => True | _ => False end.

#[global] Instance finished_dec g : Decision (finished g).
Proof. unfold finished. destruct (g_pc g); apply _. Defined.

(** * Sample environments, clients and schedules *)

Module samples.

(** The answers of a cluster to [GetByLabels]. *)
Abbreviation answers :=
  (string → string → gmap string string → manifest.List * option error).

(** A client over a cluster with the given server version and the given
    answers to [GetByLabels]; server-side diff reports no difference. *)
Definition client_of (v : semver.Version) (get : answers) : client.Client :=
  client.mkClient (client.mkInfo v "c" "https://c" "ctx", None)
                  get (λ _, (None, None)) (λ _ _, None).

(** Stand-ins for the functions of other packages; [client.New] yields the
    given client, the subset differ reports an empty diff text. *)
Definition externals (c : client.Client) : Externals :=
  {| ext_prerelease := λ _ _, 0%Z;
     LabelEnvironment := "tanka.dev/environment";
     client_New := λ _, (c, None);
     SubsetDiffer := λ _ _, (Some "", None);
     util_Diffstat := λ d, (Some d, None);
     cli_Confirm := λ _ _, None |}.

Definition quiet : answers :=
  λ _ _ _, ([], None).

Definition v1_12_9 : semver.Version := semver.mkVersion 1 12 9 "" "".
Definition v1_13_1 : semver.Version := semver.mkVersion 1 13 1 "" "".
Definition v1_9_0 : semver.Version := semver.mkVersion 1 9 0 "" "".
Definition v1_13_0_rc1 : semver.Version := semver.mkVersion 1 13 0 "rc.1" "".

(** An environment [prod] with no diff strategy configured. *)
Definition env : v1alpha1.Config :=
  v1alpha1.mkConfig
    (v1alpha1.mkMetadata "environments/prod" "environments.prod")
                    (v1alpha1.mkSpec "https://c" "prod" "").

(** The same environment with the strategy [subset] configured. *)
Definition env_subset : v1alpha1.Config :=
  v1alpha1.mkConfig
    (v1alpha1.mkMetadata "environments/prod" "environments.prod")
                    (v1alpha1.mkSpec "https://c" "prod" "subset").

(** The engine that [New] builds for a client. *)
Definition engine (c : client.Client) (cfg : v1alpha1.Config) : Kubernetes :=
  {| Env := cfg; ctl := c;
     info := (client.Client_Info c).1;
     differs := <["subset" := @SubsetDiffer (externals c) c]>
                  (<["native" := client.DiffServerSide c]> ∅) |}.

Definition api : Manifest :=
  mkManifest "Deployment" (mkMetadata "api" "prod" ∅ "1") "replicas: 1".
Definition worker : Manifest :=
  mkManifest "Deployment" (mkMetadata "worker" "prod" ∅ "7") "replicas: 2".
Definition worker' : Manifest :=
  mkManifest "Deployment"
    (mkMetadata "worker" "prod" {[ "app" := "w" ]} "8") "replicas: 3".

(** A cluster holding the deployments [api] and [worker], and under the
    kind ReplicaSet a second manifest with the identity of [worker]. *)
Definition cluster : answers :=
  λ _ kind _,
    (if bool_decide (kind = "Deployment") then [api; worker]
     else if bool_decide (kind = "ReplicaSet") then [worker']
     else [],
     None).

(** A cluster whose ConfigMap query fails and whose other queries find
    nothing. *)
Definition flaky : answers :=
  λ _ kind _,
    ([], if bool_decide (kind = "ConfigMap")
         then Some (ErrorString "i/o timeout") else None).

(** The schedule that lets the goroutines run one after the other, each
    making its query and handing over its list. *)
Definition in_turn : list action :=
  (seq 0 21 ≫= λ j, [Query j; RecvR j]) ++ [Return].

(** A schedule for [flaky]: the ConfigMap goroutine hands over its error and
    then its list, nineteen others follow, and the function returns before
    the last goroutine has made its query. *)
Definition early : list action :=
  [Query 0; RecvE 0; RecvR 0] ++ (seq 1 19 ≫= λ j, [Query j; RecvR j])
  ++ [Return].

(** The same, continued: the last goroutine makes its query and sends on the
    closed channel. *)
Definition late : list action := early ++ [Query 20; SendClosed 20].

(** The engine over [cluster] and the engine over [flaky], with their
    stand-ins. *)
Definition X_cluster : Externals :=
  externals (client_of semver.v1_13_0 cluster).
Definition k_cluster : Kubernetes :=
  engine (client_of semver.v1_13_0 cluster) env_subset.
Definition X_flaky : Externals := externals (client_of semver.v1_13_0 flaky).
Definition k_flaky : Kubernetes :=
  engine (client_of semver.v1_13_0 flaky) env_subset.

End samples.

(** * Auxiliary facts *)

(** ** Version ordering against the threshold *)

Lemma compareSegment_cases (v o : Z) :
  (v < o ∧ semver.compareSegment v o = -1)%Z ∨
  (v = o ∧ semver.compareSegment v o = 0)%Z ∨
  (o < v ∧ semver.compareSegment v o = 1)%Z.
Proof.
  unfold semver.compareSegment.
  destruct (Z.ltb_spec v o); [lia|].
  destruct (Z.ltb_spec o v); lia.
Qed.

Lemma LessThan_threshold `{semver.PrereleaseOrder} (v : semver.Version) :
  semver.LessThan v semver.v1_13_0 = true ↔ precedes_1_13_0 v.
Proof.
  unfold semver.LessThan, semver.Compare, precedes_1_13_0. simpl.
  destruct (compareSegment_cases (semver.major v) 1) as [[? ->]|[[? ->]|[? ->]]];
    simpl; [split; [lia|done] | | split; [done|lia]].
  destruct (compareSegment_cases (semver.minor v) 13) as [[? ->]|[[? ->]|[? ->]]];
    simpl; [split; [lia|done] | | split; [done|lia]].
  destruct (compareSegment_cases (semver.patch v) 0) as [[? ->]|[[? ->]|[? ->]]];
    simpl; [split; [lia|done] | | split; [done|lia]].
  case_bool_decide as Hpre; simpl.
  - split; [done|]. intros [?|[?|[?|(_ & _ & _ & ?)]]]; try lia. done.
  - split; [|done]. intros _. do 3 right. done.
Qed.

(** ** The known set and the inner loop *)

Lemma known_of_acc (state : manifest.List) (acc : gmap Identifier bool) (id : Identifier) :
  default false
    (foldl (λ known m, <[Manifest_Identifier m := true]> known) acc state !! id)
  = true
  ↔ id ∈ Manifest_Identifier <$> state ∨ default false (acc !! id) = true.
Proof.
  revert acc. induction state as [|m state IH]; intros acc; simpl.
  - rewrite elem_of_nil. tauto.
  - rewrite IH, elem_of_cons.
    destruct (decide (Manifest_Identifier m = id)) as [->|Hne].
    + rewrite lookup_insert_eq. simpl. tauto.
    + rewrite lookup_insert_ne by done. split; [tauto|].
      intros [[?|?]|?]; [congruence|tauto|tauto].
Qed.

Lemma known_at_spec (state : manifest.List) (id : Identifier) :
  known_at (known_of state) id = true ↔ id ∈ Manifest_Identifier <$> state.
Proof.
  unfold known_at, known_of. rewrite known_of_acc, lookup_empty. simpl.
  split; [intros [?|?]; [done|discriminate]|tauto].
Qed.

Lemma collect_filter (known : gmap Identifier bool) (orphaned list : manifest.List) :
  collect known orphaned list
  = orphaned ++ filter (λ m, known_at known (Manifest_Identifier m) = false) list.
Proof.
  unfold collect. revert orphaned.
  induction list as [|m list IH]; intros orphaned; simpl.
  - by rewrite app_nil_r.
  - rewrite IH. destruct (known_at known (Manifest_Identifier m)) eqn:Hk.
    + rewrite filter_cons_False; [done|]. by rewrite Hk.
    + rewrite filter_cons_True by done. by rewrite <- app_assoc.
Qed.

(** ** Updating one goroutine *)

Lemma goroutine_split (gs : list goroutine) (j : nat) (g : goroutine) :
  gs !! j = Some g →
  ∃ l1 l2, gs = l1 ++ g :: l2 ∧ ∀ g', <[j := g']> gs = l1 ++ g' :: l2.
Proof.
  intros Hj. exists (take j gs), (drop (S j) gs). split.
  - by rewrite take_drop_middle.
  - intros g'. apply insert_take_drop. by eapply lookup_lt_Some.
Qed.

(** ** Counting *)

Lemma sum_at_most_one {A} (f : A → nat) (l : list A) :
  Forall (λ x, f x ≤ 1) l → sum_list_with f l ≤ length l.
Proof. induction 1; simpl; lia. Qed.

Lemma sum_full {A} (f : A → nat) (l : list A) :
  Forall (λ x, f x ≤ 1) l → sum_list_with f l = length l →
  Forall (λ x, f x = 1) l.
Proof.
  induction 1 as [|x l Hx Hl IH]; simpl; intros Hsum; [constructor|].
  pose proof (sum_at_most_one f l Hl).
  constructor; [lia|]. apply IH. lia.
Qed.

Lemma sum_short {A} (f : A → nat) (l : list A) (x : A) :
  Forall (λ x, f x ≤ 1) l → x ∈ l → f x = 0 → sum_list_with f l < length l.
Proof.
  induction 1 as [|y l Hy Hl IH]; simpl; intros Hin Hx.
  - by apply elem_of_nil in Hin.
  - pose proof (sum_at_most_one f l Hl).
    apply elem_of_cons in Hin as [<-|Hin]; [lia|].
    specialize (IH Hin Hx). lia.
Qed.

(** ** The invariant holds when the goroutines have been launched *)

Lemma kinds_length : length kinds = 21.
Proof. reflexivity. Qed.

Lemma kinds_NoDup : NoDup kinds.
Proof. apply (bool_decide_unpack (NoDup kinds)). vm_compute. exact I. Qed.

Lemma spawn_all_at_query (k : Kubernetes) (state : manifest.List) :
  Forall (λ g, g_pc g = AtQuery ∧ g_envName g = envName k)
         (goroutines (spawn k state)).
Proof.
  unfold spawn. cbn [goroutines]. apply Forall_fmap, Forall_true.
  intros kind. done.
Qed.

Lemma at_query_nothing `{Externals} (k : Kubernetes)
    (known : gmap Identifier bool) (gs : list goroutine) :
  Forall (λ g, g_pc g = AtQuery ∧ g_envName g = envName k) gs →
  filter started gs = [] ∧
  sum_list_with (delivered k) gs = 0 ∧
  concat (contributed k known <$> gs) = [].
Proof.
  induction 1 as [|g gs [Hg _] _ (IH1 & IH2 & IH3)]; [done|].
  split; [|split].
  - rewrite filter_cons_False; [done|]. unfold started. rewrite Hg.
    intros Hne. by apply Hne.
  - simpl. rewrite IH2. unfold delivered. by rewrite Hg.
  - csimpl. rewrite IH3. unfold contributed. by rewrite Hg.
Qed.

Lemma inv_spawn `{Externals} (k : Kubernetes) (state : manifest.List) :
  inv k state (spawn k state).
Proof.
  pose proof (spawn_all_at_query k state) as Hall.
  destruct (at_query_nothing k (known_of state) _ Hall) as (Hf & Hs & Hc).
  constructor.
  - unfold spawn. cbn [goroutines]. rewrite <- list_fmap_compose.
    apply list_fmap_id.
  - eapply Forall_impl; [exact Hall|]. by intros g [_ ?].
  - eapply Forall_impl; [exact Hall|]. intros g [Hg _]. unfold pc_ok.
    by rewrite Hg.
  - rewrite Hf. done.
  - intros _. constructor.
    + done.
    + by rewrite Hs.
    + cbn [spawn loop_i]. lia.
    + rewrite Hc. reflexivity.
    + intros _. eapply Forall_impl; [exact Hall|]. intros g [Hg _] _.
      rewrite Hg. intros [].
    + intros e He. discriminate He.
    + eapply Forall_impl; [exact Hall|]. intros g [Hg _]. by rewrite Hg.
  - intros res Hres. discriminate Hres.
Qed.

(** ** Every step keeps the invariant *)

Lemma query_cases `{Externals} (k : Kubernetes) (kind : string) :
  (∃ l e, parallelGetByLabels k kind (envName k) = AtSendErr l e ∧
          (answer k kind).1 = l ∧ reported k kind e ∧ fails k kind) ∨
  (parallelGetByLabels k kind (envName k) = AtSendList (answer k kind).1 ∧
   ¬ fails k kind).
Proof.
  unfold parallelGetByLabels, fails, reported, answer.
  destruct (client.GetByLabels _ _ _ _) as [l [e0|]]; simpl.
  - left. eauto 10.
  - right. split; [done|]. by intros [? ?].
Qed.

Lemma step_Query_inv `{Externals} (k : Kubernetes) (state : manifest.List)
    (j : nat) (s s' : system) :
  inv k state s → step k (known_of state) (Query j) s = Some s' → inv k state s'.
Proof.
  intros Hinv Hstep. unfold step in Hstep.
  destruct (crashed s) eqn:Hcr; [done|].
  destruct (goroutines s !! j) as [g|] eqn:Hj; simpl in Hstep; [|done].
  destruct (g_pc g) eqn:Hpc; try done. injection Hstep as <-.
  destruct (goroutine_split _ _ _ Hj) as (l1 & l2 & Hgs & Hins).
  destruct Hinv as [Hk He Hp Hc Hl Hf].
  rewrite Hgs in Hk, He, Hp, Hc.
  assert (Henv : g_envName g = envName k).
  { rewrite Forall_app, Forall_cons in He. tauto. }
  rewrite Henv in *.
  set (g' := set_pc g _).
  assert (Hkind : g_kind g' = g_kind g) by done.
  assert (Henv' : g_envName g' = envName k) by done.
  assert (Hst : ¬ started g) by (unfold started; rewrite Hpc; tauto).
  assert (Hst' : started g').
  { unfold started, g'. simpl.
    destruct (query_cases k (g_kind g)) as [(l & e & -> & _)|[-> _]]; done. }
  constructor; cbn [goroutines calls result]; rewrite ?Hins.
  - rewrite <- Hk, !fmap_app, !fmap_cons. by rewrite Hkind.
  - rewrite Forall_app, Forall_cons in *. tauto.
  - rewrite Forall_app, Forall_cons in *. split; [tauto|]. split; [|tauto].
    unfold pc_ok, g'. simpl.
    destruct (query_cases k (g_kind g)) as [(l & e & -> & ? & ? & _)|[-> _]];
      done.
  - rewrite Hc, !filter_app, !fmap_app.
    rewrite filter_cons_False, filter_cons_True by done.
    rewrite fmap_cons, Hkind, Henv'. 
    etrans; [apply Permutation_app_comm|]. simpl. apply Permutation_middle.
  - intros Hres. destruct (Hl Hres) as [La Lc Lb Lo Ln Le Lp]. rewrite Hgs in *.
    assert (Hd : delivered k g' = 0 ∧ delivered k g = 0 ∧
                 contributed k (known_of state) g' = [] ∧
                 contributed k (known_of state) g = [] ∧
                 (fails k (g_kind g) → ¬ past_error (g_pc g'))).
    { unfold delivered, contributed, g'. simpl. rewrite Hpc.
      destruct (query_cases k (g_kind g)) as [(l & e & -> & _)|[-> Hnf]].
      - repeat split; tauto.
      - rewrite decide_False by done. repeat split; tauto. }
    destruct Hd as (Hd' & Hd & Hc' & Hc0 & Hpe).
    constructor; cbn [goroutines loop_i orphaned lastErr crashed].
    + done.
    + rewrite Lc, !sum_list_with_app. simpl. lia.
    + done.
    + rewrite Lo, !fmap_app, !fmap_cons, !concat_app. simpl.
      by rewrite Hc', Hc0.
    + intros Hn. specialize (Ln Hn). rewrite Forall_app, Forall_cons in *.
      rewrite Hkind. tauto.
    + done.
    + rewrite Forall_app, Forall_cons in *. split; [tauto|]. split; [|tauto].
      unfold g'. simpl.
      destruct (query_cases k (g_kind g)) as [(l & e & -> & _)|[-> _]]; done.
  - intros res Hres. destruct (Hf res Hres) as [Fs Ff]. rewrite Hgs in *.
    constructor; cbn [goroutines]; [|done].
    intros Hnf. destruct (Fs Hnf) as [Fst Fo]. split; [|done].
    rewrite Forall_app, Forall_cons in *. tauto.
Qed.

Lemma in_loop_true (s : system) :
  in_loop s = true ↔ result s = None ∧ loop_i s < length kinds.
Proof.
  unfold in_loop. rewrite andb_true_iff, !bool_decide_eq_true. done.
Qed.

Lemma step_RecvR_inv `{Externals} (k : Kubernetes) (state : manifest.List)
    (j : nat) (s s' : system) :
  inv k state s → step k (known_of state) (RecvR j) s = Some s' → inv k state s'.
Proof.
  intros Hinv Hstep. unfold step in Hstep.
  destruct (crashed s) eqn:Hcr; [done|].
  destruct (goroutines s !! j) as [g|] eqn:Hj; simpl in Hstep; [|done].
  destruct (g_pc g) as [|? ?|list| |] eqn:Hpc; try done.
  destruct (in_loop s) eqn:Hin; [|done]. injection Hstep as <-.
  apply in_loop_true in Hin as [Hres Hlt].
  destruct (goroutine_split _ _ _ Hj) as (l1 & l2 & Hgs & Hins).
  destruct Hinv as [Hk He Hp Hc Hl Hf].
  destruct (Hl Hres) as [La Lc Lb Lo Ln Le Lp].
  rewrite Hgs in *.
  set (g' := set_pc g Finished).
  assert (Hkind : g_kind g' = g_kind g) by done.
  assert (Henv' : g_envName g' = g_envName g) by done.
  assert (Hst : started g) by (unfold started; by rewrite Hpc).
  assert (Hst' : started g') by done.
  assert (Hlist : (answer k (g_kind g)).1 = list).
  { rewrite Forall_app, Forall_cons in Hp. destruct Hp as (_ & Hg & _).
    unfold pc_ok in Hg. by rewrite Hpc in Hg. }
  constructor; cbn [goroutines calls result]; rewrite ?Hins.
  - rewrite <- Hk, !fmap_app, !fmap_cons. by rewrite Hkind.
  - rewrite Forall_app, Forall_cons in *. tauto.
  - rewrite Forall_app, Forall_cons in *. split; [tauto|]. split; [|tauto].
    done.
  - rewrite Hc, !filter_app, !fmap_app.
    rewrite !filter_cons_True by done.
    by rewrite !fmap_cons, Hkind, Henv'.
  - intros _.
    constructor; cbn [goroutines loop_i orphaned lastErr crashed].
    + done.
    + rewrite Lc, !sum_list_with_app. simpl.
      unfold delivered. simpl. rewrite Hpc.
      destruct (decide (fails k (g_kind g))); lia.
    + lia.
    + rewrite collect_filter, Lo, !fmap_app, !fmap_cons, !concat_app. simpl.
      assert (contributed k (known_of state) g = []) as ->
        by (unfold contributed; by rewrite Hpc).
      assert (contributed k (known_of state) g'
              = filter (λ m, known_at (known_of state) (Manifest_Identifier m)
                             = false) list) as ->
        by (unfold contributed; simpl; by rewrite Hlist).
      simpl. rewrite <- app_assoc. apply Permutation_app_head.
      apply Permutation_app_comm.
    + intros Hn. specialize (Ln Hn). rewrite Forall_app, Forall_cons in *.
      rewrite Hkind. destruct Ln as (? & Hg & ?). split; [done|]. split; [|done].
      intros Hfail. exfalso. apply (Hg Hfail). by rewrite Hpc.
    + done.
    + rewrite Forall_app, Forall_cons in *. split; [tauto|]. split; [|tauto].
      done.
  - intros res Hres'. discriminate Hres'.
Qed.

Lemma goroutine_kind_in `{Externals} (k : Kubernetes) (state : manifest.List)
    (s : system) (g : goroutine) :
  inv k state s → g ∈ goroutines s → g_kind g ∈ kinds.
Proof.
  intros Hinv Hg. rewrite <- (inv_kinds _ _ _ Hinv).
  apply list_elem_of_fmap. eauto.
Qed.

Lemma step_RecvE_inv `{Externals} (k : Kubernetes) (state : manifest.List)
    (j : nat) (s s' : system) :
  inv k state s → step k (known_of state) (RecvE j) s = Some s' → inv k state s'.
Proof.
  intros Hinv Hstep. unfold step in Hstep.
  destruct (crashed s) eqn:Hcr; [done|].
  destruct (goroutines s !! j) as [g|] eqn:Hj; simpl in Hstep; [|done].
  destruct (g_pc g) as [|list err|?| |] eqn:Hpc; try done.
  destruct (in_loop s) eqn:Hin; [|done]. injection Hstep as <-.
  apply in_loop_true in Hin as [Hres Hlt].
  assert (Hkin : g_kind g ∈ kinds).
  { eapply goroutine_kind_in; [done|]. eapply list_elem_of_lookup_2. done. }
  destruct (goroutine_split _ _ _ Hj) as (l1 & l2 & Hgs & Hins).
  destruct Hinv as [Hk He Hp Hc Hl Hf].
  destruct (Hl Hres) as [La Lc Lb Lo Ln Le Lp].
  rewrite Hgs in *.
  set (g' := set_pc g (AtSendList list)).
  assert (Hkind : g_kind g' = g_kind g) by done.
  assert (Henv' : g_envName g' = g_envName g) by done.
  assert (Hst : started g) by (unfold started; by rewrite Hpc).
  assert (Hst' : started g') by done.
  assert (Hok : (answer k (g_kind g)).1 = list ∧ reported k (g_kind g) err).
  { rewrite Forall_app, Forall_cons in Hp. destruct Hp as (_ & Hg & _).
    unfold pc_ok in Hg. by rewrite Hpc in Hg. }
  destruct Hok as [Hlist Hrep].
  assert (Hfail : fails k (g_kind g)).
  { destruct Hrep as (e0 & He0 & _). unfold fails. by rewrite He0. }
  constructor; cbn [goroutines calls result]; rewrite ?Hins.
  - rewrite <- Hk, !fmap_app, !fmap_cons. by rewrite Hkind.
  - rewrite Forall_app, Forall_cons in *. tauto.
  - rewrite Forall_app, Forall_cons in *. split; [tauto|]. split; [|tauto].
    done.
  - rewrite Hc, !filter_app, !fmap_app.
    rewrite !filter_cons_True by done.
    by rewrite !fmap_cons, Hkind, Henv'.
  - intros _.
    constructor; cbn [goroutines loop_i orphaned lastErr crashed].
    + done.
    + rewrite Lc, !sum_list_with_app. simpl.
      unfold delivered. simpl. rewrite Hpc.
      rewrite decide_True by done. lia.
    + lia.
    + rewrite Lo, !fmap_app, !fmap_cons, !concat_app. simpl.
      assert (contributed k (known_of state) g = []) as ->
        by (unfold contributed; by rewrite Hpc).
      done.
    + intros Hn. discriminate Hn.
    + intros e [= <-]. eauto.
    + rewrite Forall_app, Forall_cons in *. split; [tauto|]. split; [|tauto].
      done.
  - intros res Hres'. discriminate Hres'.
Qed.

Lemma step_SendClosed_inv `{Externals} (k : Kubernetes) (state : manifest.List)
    (j : nat) (s s' : system) :
  inv k state s → step k (known_of state) (SendClosed j) s = Some s' →
  inv k state s'.
Proof.
  intros Hinv Hstep. unfold step in Hstep.
  destruct (crashed s) eqn:Hcr; [done|].
  destruct (goroutines s !! j) as [g|] eqn:Hj; simpl in Hstep; [|done].
  destruct (result s) as [res|] eqn:Hres; [|by destruct (g_pc g)].
  assert (Hst : started g).
  { unfold started. by destruct (g_pc g). }
  assert (s' = {| goroutines := <[j:=set_pc g Panicked]> (goroutines s);
                  calls := calls s; stdout := stdout s; loop_i := loop_i s;
                  orphaned := orphaned s; lastErr := lastErr s;
                  result := Some res; crashed := true |}) as ->.
  { destruct (g_pc g); by simplify_eq. }
  clear Hstep.
  destruct (goroutine_split _ _ _ Hj) as (l1 & l2 & Hgs & Hins).
  destruct Hinv as [Hk He Hp Hc Hl Hf].
  destruct (Hf _ Hres) as [Fs Ff].
  rewrite Hgs in *.
  set (g' := set_pc g Panicked).
  assert (Hkind : g_kind g' = g_kind g) by done.
  assert (Henv' : g_envName g' = g_envName g) by done.
  assert (Hst' : started g') by done.
  constructor; cbn [goroutines calls result]; rewrite ?Hins.
  - rewrite <- Hk, !fmap_app, !fmap_cons. by rewrite Hkind.
  - rewrite Forall_app, Forall_cons in *. tauto.
  - rewrite Forall_app, Forall_cons in *. split; [tauto|]. split; [|tauto].
    done.
  - rewrite Hc, !filter_app, !fmap_app.
    rewrite !filter_cons_True by done.
    by rewrite !fmap_cons, Hkind, Henv'.
  - intros Hn. discriminate Hn.
  - intros res' [= <-]. constructor; cbn [goroutines]; [|done].
    intros Hnf. destruct (Fs Hnf) as [Fst Fo]. split; [|done].
    rewrite Forall_app, Forall_cons in *. tauto.
Qed.

Lemma finished_contributed `{Externals} (k : Kubernetes)
    (known : gmap Identifier bool) (gs : list goroutine) :
  Forall (λ g, g_pc g = Finished) gs →
  concat (contributed k known <$> gs)
  = filter (λ m, known_at known (Manifest_Identifier m) = false)
           (concat ((λ kind, (answer k kind).1) <$> (g_kind <$> gs))).
Proof.
  induction 1 as [|g gs Hg _ IH]; [done|].
  csimpl. rewrite filter_app, IH. unfold contributed at 1. by rewrite Hg.
Qed.

Lemma difference_known `{Externals} (state L : manifest.List) :
  filter (λ m, known_at (known_of state) (Manifest_Identifier m) = false) L
  = difference L state.
Proof.
  unfold difference. apply list_filter_iff. intros m.
  rewrite <- known_at_spec. by destruct (known_at _ _).
Qed.

Lemma step_Return_inv `{Externals} (k : Kubernetes) (state : manifest.List)
    (s s' : system) :
  inv k state s → step k (known_of state) Return s = Some s' → inv k state s'.
Proof.
  intros Hinv Hstep. unfold step in Hstep.
  destruct (crashed s) eqn:Hcr; [done|].
  destruct (bool_decide (result s = None)) eqn:Hres; [|done].
  destruct (bool_decide (loop_i s < length kinds)) eqn:Hlt; [done|].
  cbn [andb negb] in Hstep.
  apply bool_decide_eq_true in Hres. apply bool_decide_eq_false in Hlt.
  injection Hstep as <-.
  destruct Hinv as [Hk He Hp Hc Hl Hf].
  destruct (Hl Hres) as [La Lc Lb Lo Ln Le Lp].
  assert (Hlen : length (goroutines s) = length kinds).
  { by rewrite <- Hk, length_fmap. }
  assert (Hin : ∀ g, g ∈ goroutines s → g_kind g ∈ kinds).
  { intros g Hg. rewrite <- Hk. apply list_elem_of_fmap. eauto. }
  constructor; cbn [goroutines calls result]; try done.
  intros res [= <-]. constructor; cbn [goroutines].
  - intros Hnf.
    destruct (lastErr s) as [e|] eqn:Herr.
    { destruct (Le e eq_refl) as (kind & Hkin & e0 & He0 & _).
      exfalso. apply (Hnf kind Hkin). unfold fails. by rewrite He0. }
    assert (Hfin : Forall (λ g, g_pc g = Finished) (goroutines s)).
    { assert (Hle : Forall (λ g, delivered k g ≤ 1) (goroutines s)).
      { apply Forall_forall. intros g Hg. unfold delivered.
        destruct (decide (fails k (g_kind g))) as [Hf'|_];
          [exfalso; by apply (Hnf _ (Hin _ Hg))|].
        destruct (g_pc g); lia. }
      assert (Hone : Forall (λ g, delivered k g = 1) (goroutines s))
        by (apply (sum_full _ _ Hle); lia).
      rewrite Forall_forall in Hone. apply Forall_forall. intros g Hg.
      specialize (Hone g Hg). unfold delivered in Hone.
      destruct (decide (fails k (g_kind g))) as [Hf'|_];
        [exfalso; by apply (Hnf _ (Hin _ Hg))|].
      by destruct (g_pc g). }
    split.
    + eapply Forall_impl; [exact Hfin|]. intros g Hg. unfold started.
      by rewrite Hg.
    + eexists. split; [reflexivity|].
      rewrite Lo, (finished_contributed _ _ _ Hfin), Hk.
      by rewrite difference_known.
  - intros (kind & Hkin & Hfail).
    destruct (lastErr s) as [e|] eqn:Herr.
    { destruct (Le e eq_refl) as (kind' & ? & ?). eauto. }
    exfalso. specialize (Ln eq_refl).
    rewrite <- Hk in Hkin. apply list_elem_of_fmap in Hkin as (g & -> & Hg).
    assert (Hle : Forall (λ g, delivered k g ≤ 1) (goroutines s)).
    { eapply Forall_impl; [exact Ln|]. intros g' Hg'. unfold delivered.
      destruct (decide (fails k (g_kind g'))) as [Hf'|Hf'].
      - specialize (Hg' Hf'). destruct (g_pc g'); simpl in Hg'; (lia || tauto).
      - destruct (g_pc g'); lia. }
    assert (Hz : delivered k g = 0).
    { rewrite Forall_forall in Ln. specialize (Ln g Hg Hfail).
      unfold delivered. destruct (g_pc g); simpl in Ln; (done || tauto). }
    pose proof (sum_short _ _ _ Hle Hg Hz). lia.
Qed.

Lemma step_inv `{Externals} (k : Kubernetes) (state : manifest.List)
    (a : action) (s s' : system) :
  inv k state s → step k (known_of state) a s = Some s' → inv k state s'.
Proof.
  destruct a; eauto using step_Query_inv, step_RecvR_inv, step_RecvE_inv,
    step_Return_inv, step_SendClosed_inv.
Qed.

Lemma run_inv `{Externals} (k : Kubernetes) (state : manifest.List)
    (sched : list action) (s s' : system) :
  inv k state s → run k (known_of state) sched s = Some s' → inv k state s'.
Proof.
  revert s. induction sched as [|a sched IH]; intros s Hinv Hrun; simpl in Hrun.
  - by injection Hrun as <-.
  - destruct (step k (known_of state) a s) as [s1|] eqn:Hstep; [|done].
    simpl in Hrun. eapply IH; [|done]. eapply step_inv; done.
Qed.

(** ** The call returns *)

Lemma sum_lt_exists {A} (f : A → nat) (l : list A) :
  sum_list_with f l < length l → ∃ x, x ∈ l ∧ f x = 0.
Proof.
  induction l as [|x l IH]; simpl; [lia|]. intros Hlt.
  destruct (f x) eqn:Hx.
  - exists x. split; [left|done].
  - destruct IH as (y & Hy & Hfy); [lia|]. exists y. split; [by right|done].
Qed.

Lemma progress `{Externals} (k : Kubernetes) (state : manifest.List) (s : system) :
  inv k state s → result s = None →
  ∃ a s', step k (known_of state) a s = Some s' ∧ measure s' < measure s.
Proof.
  intros Hinv Hres. pose proof (inv_kinds _ _ _ Hinv) as Hk.
  destruct (inv_loop _ _ _ Hinv Hres) as [La Lc Lb Lo Ln Le Lp].
  assert (Hlen : length (goroutines s) = length kinds).
  { by rewrite <- Hk, length_fmap. }
  destruct (decide (loop_i s < length kinds)) as [Hlt|Hge].
  - destruct (sum_lt_exists (delivered k) (goroutines s)) as (g & Hg & Hz);
      [lia|].
    rewrite Forall_forall in Lp. specialize (Lp g Hg).
    apply list_elem_of_lookup in Hg as [j Hj].
    destruct (goroutine_split _ _ _ Hj) as (l1 & l2 & Hgs & Hins).
    assert (Hloop : in_loop s = true) by (by apply in_loop_true).
    assert (Henv : g_envName g = envName k).
    { pose proof (inv_env _ _ _ Hinv) as He. rewrite Forall_forall in He.
      apply He. eapply list_elem_of_lookup_2. done. }
    assert (Hm : ∀ g' s',
              goroutines s' = <[j := g']> (goroutines s) →
              remaining g' < remaining g →
              measure s' < measure s).
    { intros g' s' Hgs' Hrem. unfold measure.
      rewrite Hgs', Hins, Hgs, Hres, !sum_list_with_app.
      cbn [sum_list_with]. destruct (result s'); lia. }
    destruct (g_pc g) as [|list err|list| |] eqn:Hpc.
    + exists (Query j). eexists. split.
      { unfold step. rewrite La, Hj. simpl. rewrite Hpc. reflexivity. }
      eapply Hm; [reflexivity|]. unfold remaining. simpl.
      rewrite Hpc, Henv.
      destruct (query_cases k (g_kind g)) as [(l & e & -> & _)|[-> _]]; lia.
    + exists (RecvE j). eexists. split.
      { unfold step. rewrite La, Hj. simpl. rewrite Hpc, Hloop. reflexivity. }
      eapply Hm; [reflexivity|]. unfold remaining. simpl. rewrite Hpc. lia.
    + exists (RecvR j). eexists. split.
      { unfold step. rewrite La, Hj. simpl. rewrite Hpc, Hloop. reflexivity. }
      eapply Hm; [reflexivity|]. unfold remaining. simpl. rewrite Hpc. lia.
    + unfold delivered in Hz. rewrite Hpc in Hz.
      destruct (decide (fails k (g_kind g))); lia.
    + done.
  - exists Return. eexists. split.
    { unfold step. rewrite La.
      rewrite (bool_decide_true (result s = None)) by done.
      rewrite (bool_decide_false (loop_i s < length kinds)) by done.
      reflexivity. }
    unfold measure. cbn [goroutines result]. rewrite Hres. lia.
Qed.

Lemma returns_within `{Externals} (k : Kubernetes) (state : manifest.List)
    (n : nat) (s : system) :
  measure s ≤ n → inv k state s → result s = None →
  ∃ sched s' res,
    run k (known_of state) sched s = Some s' ∧ result s' = Some res.
Proof.
  revert s. induction n as [|n IH]; intros s Hn Hinv Hres.
  { unfold measure in Hn. rewrite Hres in Hn. lia. }
  destruct (progress k state s Hinv Hres) as (a & s1 & Hstep & Hlt).
  destruct (result s1) as [res|] eqn:Hres1.
  - exists [a], s1, res. simpl. by rewrite Hstep.
  - destruct (IH s1) as (sched & s' & res & Hrun & Hr);
      [lia|by eapply step_inv|done|].
    exists (a :: sched), s', res. simpl. by rewrite Hstep.
Qed.

(** From every state that a call can be in before the return, some
    continuation reaches the return; in particular the call can always
    return. *)
Lemma listOrphaned_returns `{Externals} (k : Kubernetes) (state : manifest.List) :
  ∃ sched res, listOrphaned k state sched = Some res.
Proof.
  destruct (returns_within k state (measure (spawn k state)) (spawn k state))
    as (sched & s' & res & Hrun & Hres); [done|apply inv_spawn|done|].
  exists sched, res. unfold listOrphaned. by rewrite Hrun.
Qed.

(** ** The result is fixed at the return, and carries the last error seen *)

Lemma step_result_stable `{Externals} (k : Kubernetes)
    (known : gmap Identifier bool) (a : action) (s s' : system)
    (res : option manifest.List * option error) :
  step k known a s = Some s' → result s = Some res →
  result s' = Some res ∧
  match a with RecvE _ | RecvR _ | Return => False | _ => True end.
Proof.
  intros Hstep Hres. unfold step, in_loop in Hstep. rewrite Hres in Hstep.
  destruct (crashed s); [done|].
  destruct a as [j|j|j| |j]; simpl in Hstep; try done;
    destruct (goroutines s !! j) as [g|]; simpl in Hstep; try done;
    destruct (g_pc g); simplify_eq; done.
Qed.

Lemma run_result_stable `{Externals} (k : Kubernetes)
    (known : gmap Identifier bool) (sched : list action) (s s' : system)
    (res : option manifest.List * option error) :
  run k known sched s = Some s' → result s = Some res →
  result s' = Some res ∧ observed k known sched s = [].
Proof.
  revert s. induction sched as [|a sched IH]; intros s Hrun Hres;
    simpl in Hrun |- *.
  - by injection Hrun as <-.
  - destruct (step k known a s) as [s1|] eqn:Hstep; [|done]. simpl in Hrun.
    destruct (step_result_stable _ _ _ _ _ _ Hstep Hres) as [Hres1 Ha].
    destruct (IH _ Hrun Hres1) as [-> ->]. split; [done|].
    by destruct a.
Qed.

Lemma run_last_observed `{Externals} (k : Kubernetes)
    (known : gmap Identifier bool) (sched : list action) (s s' : system)
    (res : option manifest.List * option error) :
  run k known sched s = Some s' → result s = None → result s' = Some res →
  res.2 = match last (observed k known sched s) with
          | Some e => Some e
          | None => lastErr s
          end.
Proof.
  revert s. induction sched as [|a sched IH]; intros s Hrun Hnone Hres;
    simpl in Hrun |- *.
  - injection Hrun as <-. congruence.
  - destruct (step k known a s) as [s1|] eqn:Hstep; [|done]. simpl in Hrun.
    unfold step in Hstep. destruct (crashed s); [done|].
    destruct a as [j|j|j| |j].
    + destruct (goroutines s !! j) as [g|]; simpl in Hstep |- *; [|done].
      destruct (g_pc g); simplify_eq. simpl. exact (IH _ Hrun Hnone Hres).
    + destruct (goroutines s !! j) as [g|]; simpl in Hstep |- *; [|done].
      destruct (g_pc g); try done. destruct (in_loop s); simplify_eq.
      simpl. exact (IH _ Hrun eq_refl Hres).
    + destruct (goroutines s !! j) as [g|]; simpl in Hstep |- *; [|done].
      destruct (g_pc g) as [|list err|?| |]; try done.
      destruct (in_loop s); simplify_eq. simpl.
      rewrite (IH _ Hrun eq_refl Hres). simpl.
      rewrite last_cons. by destruct (last (observed k known sched _)).
    + destruct (bool_decide (result s = None) &&
                negb (bool_decide (loop_i s < length kinds))); [|done].
      injection Hstep as <-. simpl.
      destruct (run_result_stable _ _ _ _ _ _ Hrun eq_refl) as [Hr ->].
      simpl. rewrite Hres in Hr. injection Hr as ->. by destruct (lastErr s).
    + destruct (goroutines s !! j) as [g|]; simpl in Hstep |- *; [|done].
      rewrite Hnone in Hstep. by destruct (g_pc g).
Qed.

(** ** From a returned result back to the invariant *)

Lemma listOrphaned_final `{Externals} (k : Kubernetes) (state : manifest.List)
    (sched : list action) (res : option manifest.List * option error) :
  listOrphaned k state sched = Some res →
  ∃ s, run k (known_of state) sched (spawn k state) = Some s ∧
       result s = Some res ∧ inv k state s ∧ final k state s res.
Proof.
  unfold listOrphaned. intros Hres.
  destruct (run _ _ _ _) as [s|] eqn:Hrun; [|done]. simpl in Hres.
  assert (Hinv : inv k state s) by (eapply run_inv; [apply inv_spawn|done]).
  exists s. split; [done|]. split; [done|]. split; [done|].
  by apply (inv_final _ _ _ Hinv).
Qed.

Lemma returned_list_no_failure `{Externals} (k : Kubernetes)
    (state : manifest.List) (sched : list action) (o : manifest.List)
    (err : option error) :
  listOrphaned k state sched = Some (Some o, err) →
  ∀ kind, kind ∈ kinds → ¬ fails k kind.
Proof.
  intros Hres kind Hkin Hfail.
  destruct (listOrphaned_final _ _ _ _ Hres) as (s & _ & _ & _ & [_ Ff]).
  destruct Ff as (e & kind' & [=] & _). eauto.
Qed.

(** ** Facts about the difference *)

Lemma difference_elem (L D : manifest.List) (m : Manifest) :
  m ∈ difference L D ↔
  m ∈ L ∧ Manifest_Identifier m ∉ Manifest_Identifier <$> D.
Proof. unfold difference. rewrite list_elem_of_filter. tauto. Qed.

Lemma difference_nil_r (L : manifest.List) : difference L [] = L.
Proof.
  unfold difference. induction L as [|m L IH]; [done|].
  rewrite filter_cons_True; [by rewrite IH|]. simpl. apply not_elem_of_nil.
Qed.

Lemma difference_covered (L D : manifest.List) :
  (∀ m, m ∈ L → Manifest_Identifier m ∈ Manifest_Identifier <$> D) →
  difference L D = [].
Proof.
  intros Hcov. apply elem_of_nil_inv. intros m Hm.
  apply difference_elem in Hm as [Hm Hn]. apply Hn, Hcov, Hm.
Qed.

Lemma concat_perm {A} (ls ls' : list (list A)) :
  ls ≡ₚ ls' → concat ls ≡ₚ concat ls'.
Proof.
  induction 1 as [|l ls ls' _ IH|l l' ls|ls1 ls2 ls3 _ IH1 _ IH2]; simpl.
  - done.
  - by rewrite IH.
  - rewrite !app_assoc. by rewrite (Permutation_app_comm l l').
  - by rewrite IH1.
Qed.

Lemma filter_hit {A} (P : A → Prop) `{∀ x, Decision (P x)} (l : list A) (x : A) :
  x ∈ l → P x → 1 ≤ length (filter P l).
Proof.
  intros Hx HP. assert (Hin : x ∈ filter P l) by (by apply list_elem_of_filter).
  destruct (filter P l); [by apply elem_of_nil in Hin|simpl; lia].
Qed.

Lemma live_two_kinds `{Externals} (k : Kubernetes) (kind1 kind2 : string) :
  kind1 ∈ kinds → kind2 ∈ kinds → kind1 ≠ kind2 →
  ∃ rest, live k ≡ₚ (answer k kind1).1 ++ (answer k kind2).1 ++ rest.
Proof.
  intros H1 H2 Hne.
  apply elem_of_Permutation in H1 as [l1 Hl1].
  rewrite Hl1 in H2. apply elem_of_cons in H2 as [H2|H2]; [congruence|].
  apply elem_of_Permutation in H2 as [l2 Hl2].
  exists (concat ((λ kind, (answer k kind).1) <$> l2)).
  unfold live. etrans.
  { apply concat_perm, fmap_Permutation. rewrite Hl1, Hl2. reflexivity. }
  done.
Qed.




(** * Resource identity *)

(** C9 — Two manifests have the same Identifier exactly when their kind,
    metadata name and metadata namespace agree pairwise; the labels, the
    resource version and the body of a manifest play no part, so replacing
    them leaves the Identifier unchanged. *)
Theorem Identifier_structural :
  (∀ m1 m2 : Manifest,
     Manifest_Identifier m1 = Manifest_Identifier m2 ↔
     m_kind m1 = m_kind m2 ∧
     meta_name (m_metadata m1) = meta_name (m_metadata m2) ∧
     meta_namespace (m_metadata m1) = meta_namespace (m_metadata m2)) ∧
  (∀ (m : Manifest) (labels : gmap string string) (rv body : string),
     Manifest_Identifier
       (mkManifest (m_kind m)
          (mkMetadata (meta_name (m_metadata m)) (meta_namespace (m_metadata m))
             labels rv)
          body)
     = Manifest_Identifier m) ∧
  (∀ i1 i2 : Identifier,
     i1 = i2 ↔ Kind i1 = Kind i2 ∧ Name i1 = Name i2 ∧ Namespace i1 = Namespace i2).
Proof.
  split; [|split].
  - intros m1 m2. unfold Manifest_Identifier. split.
    + intros Heq. by inversion Heq.
    + intros (-> & -> & ->). reflexivity.
  - reflexivity.
  - intros [k1 n1 s1] [k2 n2 s2]. simpl. split.
    + intros Heq. by inversion Heq.
    + intros (-> & -> & ->). reflexivity.
Qed.

(** * Construction and diffing *)

(** C6 — When the client is created and its information obtained, [New]
    succeeds; with no diff strategy configured it stores ["subset"] when the
    server version precedes 1.13.0 in semantic-version order and ["native"]
    otherwise, and a configured non-empty name is stored unchanged. *)
Theorem New_selects_strategy `{Externals} (c : v1alpha1.Config)
    (cl : client.Client) (i : client.Info) :
  client_New (v1alpha1.APIServer (v1alpha1.Config_Spec c)) = (cl, None) →
  client.Client_Info cl = (i, None) →
  ∃ k : Kubernetes,
    New c = (Some k, None) ∧ info k = i ∧
    let configured := v1alpha1.DiffStrategy (v1alpha1.Config_Spec c) in
    let selected := v1alpha1.DiffStrategy (v1alpha1.Config_Spec (Env k)) in
    (configured = "" → precedes_1_13_0 (client.ServerVersion i) →
       selected = "subset") ∧
    (configured = "" → ¬ precedes_1_13_0 (client.ServerVersion i) →
       selected = "native") ∧
    (configured ≠ "" → selected = configured ∧ Env k = c).
Proof.
  intros Hnew Hinfo. unfold New. rewrite Hnew, Hinfo.
  eexists. split; [reflexivity|]. split; [reflexivity|]. simpl.
  case_bool_decide as Hcfg.
  - destruct (semver.LessThan (client.ServerVersion i) semver.v1_13_0) eqn:Hlt.
    + repeat split; try done. intros _ Hn. apply LessThan_threshold in Hlt. done.
    + repeat split; try done. intros _ Hp. apply LessThan_threshold in Hp.
      congruence.
  - repeat split; done.
Qed.

Lemma New_selects_strategy_witness :
  ∃ k : Kubernetes,
    @New (samples.externals (samples.client_of samples.v1_12_9 samples.quiet))
         samples.env = (Some k, None) ∧
    info k = client.mkInfo samples.v1_12_9 "c" "https://c" "ctx" ∧
    ((("" : string) = "" → precedes_1_13_0 samples.v1_12_9 →
        v1alpha1.DiffStrategy (v1alpha1.Config_Spec (Env k)) = "subset") ∧
     (("" : string) = "" → ¬ precedes_1_13_0 samples.v1_12_9 →
        v1alpha1.DiffStrategy (v1alpha1.Config_Spec (Env k)) = "native") ∧
     (("" : string) ≠ "" →
        v1alpha1.DiffStrategy (v1alpha1.Config_Spec (Env k)) = "" ∧
        Env k = samples.env)).
Proof.
  apply (@New_selects_strategy
           (samples.externals (samples.client_of samples.v1_12_9 samples.quiet))
           samples.env
           (samples.client_of samples.v1_12_9 samples.quiet)
           (client.mkInfo samples.v1_12_9 "c" "https://c" "ctx"));
    reflexivity.
Defined.

(** The boundary values: 1.12.9 and 1.9.0 select ["subset"], 1.13.0 and
    1.13.1 select ["native"]. *)
Example New_boundary_values :
  let strategy v :=
    (λ k, v1alpha1.DiffStrategy (v1alpha1.Config_Spec (Env k))) <$>
    (@New (samples.externals (samples.client_of v samples.quiet)) samples.env).1 in
  strategy samples.v1_12_9 = Some "subset" ∧
  strategy samples.v1_9_0 = Some "subset" ∧
  strategy semver.v1_13_0 = Some "native" ∧
  strategy samples.v1_13_1 = Some "native" ∧
  strategy samples.v1_13_0_rc1 = Some "subset".
Proof. repeat split; reflexivity. Qed.

(** C7, as the code has it — [Diff] looks up the per-call strategy name when
    it is not empty and the instance default otherwise.  When that name is
    registered, [Diff] returns what the strategy yields (an error as it is,
    no diff as no diff, a diff text as it is or summarised).  When it is
    not registered, [Diff] returns nothing, neither an error nor a diff: the
    call panics. *)
Theorem Diff_strategy_resolution `{Externals} (k : Kubernetes)
    (state : manifest.List) (opts : DiffOpts) :
  (Strategy opts ≠ "" → Diff_strategy k opts = Strategy opts) ∧
  (Strategy opts = "" →
     Diff_strategy k opts = v1alpha1.DiffStrategy (v1alpha1.Config_Spec (Env k))) ∧
  (∀ differ, differs k !! Diff_strategy k opts = Some differ →
     ∃ res, Diff k state opts = Returns res ∧
       match differ state with
       | (_, Some err) => res = (None, Some err)
       | (None, None) => res = (None, None)
       | (Some d, None) =>
         res = if Summarize opts then util_Diffstat d else (Some d, None)
       end) ∧
  (differs k !! Diff_strategy k opts = None →
     ∃ reason, Diff k state opts = Panics reason ∧
       ∀ res, Diff k state opts ≠ Returns res).
Proof.
  split; [|split; [|split]].
  - intros Hs. unfold Diff_strategy. by rewrite bool_decide_true.
  - intros Hs. unfold Diff_strategy. rewrite bool_decide_false; [done|].
    by intros [].
  - intros differ Hreg. unfold Diff. cbv zeta. rewrite Hreg.
    destruct (differ state) as [[d|] [err|]]; eauto.
    destruct (Summarize opts); eauto.
  - intros Hreg.
    assert (Diff k state opts
            = Panics "invalid memory address or nil pointer dereference") as ->
      by (unfold Diff; cbv zeta; by rewrite Hreg).
    eexists. split; [reflexivity|]. done.
Qed.

(** C7, as stated, fails: with the two registered strategies and the
    per-call name ["bogus"], [Diff] panics rather than return an error. *)
Lemma Diff_unknown_strategy_panics :
  let c := samples.client_of semver.v1_13_0 samples.quiet in
  ¬ (∃ err : error,
       @Diff (samples.externals c) (samples.engine c samples.env_subset) []
             (mkDiffOpts false "bogus")
       = Returns (None, Some err)).
Proof. intros c [err Herr]. vm_compute in Herr. discriminate Herr. Qed.

(** C8 — For a registered strategy: when it yields no diff and no error,
    [Diff] returns no diff and no error; when it yields an error, [Diff]
    returns that error and no diff text; and an empty diff text, returned
    unsummarised, is a present result that differs from "no diff". *)
Theorem Diff_no_diff_distinct `{Externals} (k : Kubernetes)
    (state : manifest.List) (opts : DiffOpts) (differ : Differ) :
  differs k !! Diff_strategy k opts = Some differ →
  (differ state = (None, None) → Diff k state opts = Returns (None, None)) ∧
  (∀ d err, differ state = (d, Some err) →
     Diff k state opts = Returns (None, Some err)) ∧
  (differ state = (Some "", None) → Summarize opts = false →
     Diff k state opts = Returns (Some "", None) ∧
     Diff k state opts ≠ Returns (None, None)).
Proof.
  intros Hreg. unfold Diff. cbv zeta. rewrite Hreg.
  split; [|split].
  - by intros ->.
  - intros d err ->. by destruct d.
  - intros -> ->. done.
Qed.

Lemma Diff_no_diff_distinct_witness :
  let differ : Differ := λ _, (Some "", None) in
  (differ [samples.api] = (None, None) →
   @Diff samples.X_cluster samples.k_cluster [samples.api] (mkDiffOpts false "")
   = Returns (None, None)) ∧
  (∀ d err, differ [samples.api] = (d, Some err) →
     @Diff samples.X_cluster samples.k_cluster [samples.api]
           (mkDiffOpts false "")
     = Returns (None, Some err)) ∧
  (differ [samples.api] = (Some "", None) → false = false →
     @Diff samples.X_cluster samples.k_cluster [samples.api]
           (mkDiffOpts false "")
     = Returns (Some "", None) ∧
     @Diff samples.X_cluster samples.k_cluster [samples.api]
           (mkDiffOpts false "")
     ≠ Returns (None, None)).
Proof.
  apply (@Diff_no_diff_distinct samples.X_cluster samples.k_cluster
           [samples.api] (mkDiffOpts false "") (λ _, (Some "", None))).
  vm_compute. reflexivity.
Defined.

(** With the server-side strategy of the sample client, which finds nothing
    to report, [Diff] returns no diff; with the subset strategy of the
    sample, it returns the empty text. *)
Example Diff_native_and_subset :
  @Diff samples.X_cluster samples.k_cluster [samples.api]
        (mkDiffOpts false "native") = Returns (None, None) ∧
  @Diff samples.X_cluster samples.k_cluster [samples.api]
        (mkDiffOpts false "") = Returns (Some "", None).
Proof. split; vm_compute; reflexivity. Qed.

(** * Orphan detection *)

(** C1 — When no per-kind query fails, [listOrphaned] returns (under every
    schedule; and some schedule returns), and what it returns is an orphan
    list and no error.  The list holds exactly the live manifests whose
    Identifier is not that of a manifest of the desired state, each as often
    as the queries returned it, in the order of arrival: it is a permutation
    of L \ D.  It is empty when every live Identifier is a desired one, in
    particular when the desired state is the live state, and it is all of L
    when the desired state is empty. *)
Theorem listOrphaned_set_difference `{Externals} (k : Kubernetes)
    (state : manifest.List) :
  (∀ kind, kind ∈ kinds → ¬ fails k kind) →
  (∃ sched res, listOrphaned k state sched = Some res) ∧
  ∀ sched res, listOrphaned k state sched = Some res →
    ∃ orphans,
      res = (Some orphans, None) ∧
      orphans ≡ₚ difference (live k) state ∧
      (∀ m, m ∈ orphans ↔
            m ∈ live k ∧
            Manifest_Identifier m ∉ Manifest_Identifier <$> state) ∧
      ((∀ m, m ∈ live k →
             Manifest_Identifier m ∈ Manifest_Identifier <$> state) →
       orphans = []) ∧
      (state ≡ₚ live k → orphans = []) ∧
      (state = [] → orphans ≡ₚ live k).
Proof.
  intros Hnf. split; [apply listOrphaned_returns|].
  intros sched res Hres.
  destruct (listOrphaned_final _ _ _ _ Hres) as (s & _ & _ & _ & [Fs _]).
  destruct (Fs Hnf) as (_ & orphans & -> & Hperm).
  assert (Hcov : (∀ m, m ∈ live k →
                       Manifest_Identifier m ∈ Manifest_Identifier <$> state) →
                 orphans = []).
  { intros Hcov. apply Permutation_nil. rewrite Hperm.
    by rewrite difference_covered. }
  exists orphans. split; [done|]. split; [done|]. split; [|split; [|split]].
  - intros m. by rewrite Hperm, difference_elem.
  - exact Hcov.
  - intros Heq. apply Hcov. intros m Hm. apply list_elem_of_fmap_2.
    by rewrite Heq.
  - intros ->. by rewrite Hperm, difference_nil_r.
Qed.

Lemma listOrphaned_set_difference_witness :
  (∃ sched res,
     @listOrphaned samples.X_cluster samples.k_cluster [samples.api] sched
     = Some res) ∧
  ∀ sched res,
    @listOrphaned samples.X_cluster samples.k_cluster [samples.api] sched
    = Some res →
    ∃ orphans,
      res = (Some orphans, None) ∧
      orphans ≡ₚ difference (@live samples.X_cluster samples.k_cluster)
                            [samples.api] ∧
      (∀ m, m ∈ orphans ↔
            m ∈ @live samples.X_cluster samples.k_cluster ∧
            Manifest_Identifier m ∉ Manifest_Identifier <$> [samples.api]) ∧
      ((∀ m, m ∈ @live samples.X_cluster samples.k_cluster →
             Manifest_Identifier m ∈ Manifest_Identifier <$> [samples.api]) →
       orphans = []) ∧
      ([samples.api] ≡ₚ @live samples.X_cluster samples.k_cluster →
       orphans = []) ∧
      ([samples.api] = [] →
       orphans ≡ₚ @live samples.X_cluster samples.k_cluster).
Proof.
  apply (@listOrphaned_set_difference samples.X_cluster samples.k_cluster
           [samples.api]).
  intros kind _ [e He]. simpl in He. discriminate He.
Defined.

(** The scenario of the specification: the desired state holds the
    deployment [api]; the cluster holds [api], [worker], and a second
    manifest with the identity of [worker]; the goroutines run in turn. *)
Example listOrphaned_scenario :
  @listOrphaned samples.X_cluster samples.k_cluster [samples.api]
                samples.in_turn
  = Some (Some [samples.worker; samples.worker'], None).
Proof. vm_compute. reflexivity. Qed.

(** C2 — When at least one per-kind query fails, [listOrphaned] returns
    (under every schedule; and some schedule returns), and what it returns
    is the nil list together with an error: the error that the collecting
    loop received last, which is the failure of one of the kinds wrapped
    with that kind.  Errors received before it are not part of the
    result. *)
Theorem listOrphaned_failure `{Externals} (k : Kubernetes)
    (state : manifest.List) :
  (∃ kind, kind ∈ kinds ∧ fails k kind) →
  (∃ sched res, listOrphaned k state sched = Some res) ∧
  ∀ sched res, listOrphaned k state sched = Some res →
    ∃ e kind,
      res = (None, Some e) ∧
      last (observed k (known_of state) sched (spawn k state)) = Some e ∧
      kind ∈ kinds ∧ reported k kind e.
Proof.
  intros Hfail. split; [apply listOrphaned_returns|].
  intros sched res Hres.
  destruct (listOrphaned_final _ _ _ _ Hres) as (s & Hrun & Hr & _ & [_ Ff]).
  destruct (Ff Hfail) as (e & kind & -> & Hkin & Hrep).
  exists e, kind. split; [done|]. split; [|done].
  pose proof (run_last_observed _ _ _ _ _ _ Hrun eq_refl Hr) as Hlast.
  simpl in Hlast. by destruct (last _).
Qed.

Lemma listOrphaned_failure_witness :
  (∃ sched res,
     @listOrphaned samples.X_flaky samples.k_flaky [samples.api] sched
     = Some res) ∧
  ∀ sched res,
    @listOrphaned samples.X_flaky samples.k_flaky [samples.api] sched
    = Some res →
    ∃ e kind,
      res = (None, Some e) ∧
      last (@observed samples.X_flaky samples.k_flaky
              (known_of [samples.api]) sched
              (spawn samples.k_flaky [samples.api])) = Some e ∧
      kind ∈ kinds ∧ @reported samples.X_flaky samples.k_flaky kind e.
Proof.
  apply (@listOrphaned_failure samples.X_flaky samples.k_flaky [samples.api]).
  exists "ConfigMap". split; [by left|]. vm_compute. eauto.
Defined.

(** C10 — The orphan list is not deduplicated within itself: when
    [listOrphaned] returns an orphan list and the queries for two different
    kinds each returned a manifest with one and the same Identifier, absent
    from the desired state, both manifests are in the list, which so holds
    that Identifier at least twice. *)
Theorem listOrphaned_keeps_duplicates `{Externals} (k : Kubernetes)
    (state : manifest.List) (sched : list action) (orphans : manifest.List)
    (kind1 kind2 : string) (m1 m2 : Manifest) :
  listOrphaned k state sched = Some (Some orphans, None) →
  kind1 ∈ kinds → kind2 ∈ kinds → kind1 ≠ kind2 →
  m1 ∈ (answer k kind1).1 → m2 ∈ (answer k kind2).1 →
  Manifest_Identifier m1 = Manifest_Identifier m2 →
  Manifest_Identifier m1 ∉ Manifest_Identifier <$> state →
  m1 ∈ orphans ∧ m2 ∈ orphans ∧
  2 ≤ length (filter (λ m, Manifest_Identifier m = Manifest_Identifier m1)
                     orphans).
Proof.
  intros Hres Hk1 Hk2 Hne Hm1 Hm2 Hid Hnew.
  pose proof (returned_list_no_failure _ _ _ _ _ Hres) as Hnf.
  destruct (listOrphaned_final _ _ _ _ Hres) as (s & _ & _ & _ & [Fs _]).
  destruct (Fs Hnf) as (_ & o & [= <-] & Hperm).
  destruct (live_two_kinds k kind1 kind2 Hk1 Hk2 Hne) as (rest & Hlive).
  assert (Hin1 : m1 ∈ live k).
  { rewrite Hlive, !elem_of_app. tauto. }
  assert (Hin2 : m2 ∈ live k).
  { rewrite Hlive, !elem_of_app. tauto. }
  split; [|split].
  - rewrite Hperm. by apply difference_elem.
  - rewrite Hperm. apply difference_elem. split; [done|]. by rewrite <- Hid.
  - rewrite Hperm. unfold difference. rewrite Hlive, !filter_app, !length_app.
    assert (1 ≤ length (filter
                (λ m, Manifest_Identifier m = Manifest_Identifier m1)
                (filter (λ m, Manifest_Identifier m
                              ∉ Manifest_Identifier <$> state)
                        (answer k kind1).1))).
    { apply (filter_hit _ _ m1); [|done]. by apply list_elem_of_filter. }
    assert (1 ≤ length (filter
                (λ m, Manifest_Identifier m = Manifest_Identifier m1)
                (filter (λ m, Manifest_Identifier m
                              ∉ Manifest_Identifier <$> state)
                        (answer k kind2).1))).
    { apply (filter_hit _ _ m2); [|done]. apply list_elem_of_filter.
      split; [|done]. by rewrite <- Hid. }
    lia.
Qed.

Lemma listOrphaned_keeps_duplicates_witness :
  samples.worker ∈ [samples.worker; samples.worker'] ∧
  samples.worker' ∈ [samples.worker; samples.worker'] ∧
  2 ≤ length (filter (λ m, Manifest_Identifier m
                           = Manifest_Identifier samples.worker)
                     [samples.worker; samples.worker']).
Proof.
  apply (@listOrphaned_keeps_duplicates samples.X_cluster samples.k_cluster
           [samples.api] samples.in_turn [samples.worker; samples.worker']
           "Deployment" "ReplicaSet" samples.worker samples.worker').
  - vm_compute. reflexivity.
  - apply (bool_decide_unpack _). vm_compute. exact I.
  - apply (bool_decide_unpack _). vm_compute. exact I.
  - discriminate.
  - vm_compute. right. left.
  - vm_compute. left.
  - reflexivity.
  - apply (bool_decide_unpack _). vm_compute. exact I.
Defined.

(** C5, as the code has it — In every state of a call, each query made so
    far asks for one kind of the catalog of 21 kinds, with the empty string
    as namespace (not the namespace of the environment) and with the one
    label [LabelEnvironment] set to the name label of the environment; no
    kind is asked for twice.  When no query fails and [listOrphaned] has
    returned, every kind of the catalog has been asked for exactly once. *)
Theorem listOrphaned_queries `{Externals} (k : Kubernetes)
    (state : manifest.List) (sched : list action) (s : system) :
  run k (known_of state) sched (spawn k state) = Some s →
  length kinds = 21 ∧
  NoDup (call_kind <$> calls s) ∧
  (∀ c, c ∈ calls s →
        call_kind c ∈ kinds ∧
        c = mkCall "" (call_kind c) {[ LabelEnvironment := envName k ]}) ∧
  ((∀ kind, kind ∈ kinds → ¬ fails k kind) → is_Some (result s) →
   call_kind <$> calls s ≡ₚ kinds).
Proof.
  intros Hrun.
  assert (Hinv : inv k state s) by (eapply run_inv; [apply inv_spawn|done]).
  destruct Hinv as [Hk He Hp Hc Hl Hf].
  assert (Hkinds : call_kind <$> calls s ≡ₚ g_kind <$> filter started (goroutines s)).
  { rewrite Hc, <- list_fmap_compose. done. }
  split; [reflexivity|]. split; [|split].
  - rewrite Hkinds. eapply sublist_NoDup; [apply kinds_NoDup|].
    rewrite <- Hk. apply fmap_sublist, sublist_filter.
  - intros c Hin. rewrite Hc in Hin.
    apply list_elem_of_fmap in Hin as (g & -> & Hg).
    apply list_elem_of_filter in Hg as [_ Hg].
    rewrite Forall_forall in He. split.
    + simpl. rewrite <- Hk. by apply list_elem_of_fmap_2.
    + by rewrite (He g Hg).
  - intros Hnf [res Hres]. destruct (Hf res Hres) as [Fs _].
    destruct (Fs Hnf) as [Hst _]. rewrite Hkinds, <- Hk.
    assert (filter started (goroutines s) = goroutines s) as ->; [|done].
    clear -Hst. induction Hst as [|g gs Hg _ IH]; [done|].
    by rewrite filter_cons_True, IH.
Qed.

Lemma listOrphaned_queries_witness :
  ∃ s,
    @run samples.X_cluster samples.k_cluster (known_of [samples.api])
         samples.in_turn (spawn samples.k_cluster [samples.api]) = Some s ∧
    length kinds = 21 ∧
    NoDup (call_kind <$> calls s) ∧
    (∀ c, c ∈ calls s →
          call_kind c ∈ kinds ∧
          c = mkCall "" (call_kind c)
                {[ @LabelEnvironment samples.X_cluster
                   := envName samples.k_cluster ]}) ∧
    ((∀ kind, kind ∈ kinds → ¬ @fails samples.X_cluster samples.k_cluster kind) →
     is_Some (result s) → call_kind <$> calls s ≡ₚ kinds).
Proof.
  eexists. split; [vm_compute; reflexivity|].
  apply (@listOrphaned_queries samples.X_cluster samples.k_cluster
           [samples.api] samples.in_turn).
  vm_compute. reflexivity.
Defined.

(** C5, as stated, fails: in the environment with namespace ["prod"] the
    first query is made with the empty namespace. *)
Lemma listOrphaned_query_namespace :
  ¬ (∀ (sched : list action) (s : system) (c : Call),
       @run samples.X_cluster samples.k_cluster (known_of [samples.api])
            sched (spawn samples.k_cluster [samples.api]) = Some s →
       c ∈ calls s →
       call_namespace c
       = v1alpha1.Namespace (v1alpha1.Config_Spec (Env samples.k_cluster))).
Proof.
  intros Hall.
  specialize (Hall [Query 0] _
                (mkCall "" "ConfigMap"
                   {[ @LabelEnvironment samples.X_cluster
                      := envName samples.k_cluster ]})
                eq_refl).
  discriminate Hall. by left.
Qed.

(** A goroutine whose query failed is, once its error has been received,
    blocked on the send of its list: nothing ends it after the send on
    [e]. *)
Lemma failed_goroutine_goes_on `{Externals} (k : Kubernetes)
    (known : gmap Identifier bool) (s : system) (j : nat) (g : goroutine)
    (list : manifest.List) (err : error) :
  crashed s = false → in_loop s = true →
  goroutines s !! j = Some g → g_pc g = AtSendErr list err →
  ∃ s', step k known (RecvE j) s = Some s' ∧
        lastErr s' = Some err ∧ loop_i s' = S (loop_i s) ∧
        g_pc <$> goroutines s' !! j = Some (AtSendList list).
Proof.
  intros Hcr Hloop Hj Hpc. unfold step. rewrite Hcr, Hj. simpl.
  rewrite Hpc, Hloop. eexists. split; [reflexivity|]. simpl.
  split; [done|]. split; [done|].
  rewrite list_lookup_insert_eq; [done|]. by eapply lookup_lt_Some.
Qed.

(** C4, on the code — The goroutine of a kind whose query fails reports
    twice: with the ConfigMap query failing, its goroutine hands over one
    message on [e] and then one message on [r], and the loop counts two
    outcomes for it. *)
Theorem parallelGetByLabels_sends_on_both :
  let sched := [Query 0; RecvE 0; RecvR 0] in
  let s0 := spawn samples.k_flaky [] in
  (@answer samples.X_flaky samples.k_flaky "ConfigMap").2
    = Some (ErrorString "i/o timeout") ∧
  @sent_on_e samples.X_flaky samples.k_flaky (known_of []) 0 sched s0 = 1 ∧
  @sent_on_r samples.X_flaky samples.k_flaky (known_of []) 0 sched s0 = 1 ∧
  loop_i <$> @run samples.X_flaky samples.k_flaky (known_of []) sched s0
    = Some 2.
Proof. vm_compute. done. Qed.

(** With one failing query the loop can reach its count before every
    goroutine has made its query: under the schedule [early] the function
    returns after 20 queries, and under [late] the last goroutine then sends
    on a closed channel. *)
Example listOrphaned_returns_early :
  let run sched :=
    @run samples.X_flaky samples.k_flaky (known_of []) sched
         (spawn samples.k_flaky []) in
  (λ s, (length (calls s), result s)) <$> run samples.early
    = Some (20, Some (None, Some (wrap_kind (ErrorString "i/o timeout")
                                            "ConfigMap"))) ∧
  (λ s, (length (calls s), crashed s, g_pc <$> goroutines s !! 20))
    <$> run samples.late
    = Some (21, true, Some Panicked).
Proof. vm_compute. done. Qed.

(** * Apply *)

(** Whatever the options and the schedule, [Apply] only prints: it asks for
    no confirmation and makes no mutating call. *)
Lemma Apply_only_prints `{Externals} (k : Kubernetes) (state : manifest.List)
    (opts : ApplyOpts) (sched : list action) (effs : list effect)
    (err : option error) :
  Apply k state opts sched = Some (effs, err) →
  Forall (λ eff, ∃ o, eff = Print o) effs.
Proof.
  unfold Apply. intros Happ.
  destruct (run _ _ _ _) as [s|]; [|done]. simpl in Happ.
  destruct (result s) as [[list [e|]]|]; simplify_eq/=.
  - apply Forall_fmap, Forall_true. intros o. by eexists.
  - apply Forall_app. split; [apply Forall_fmap, Forall_true; intros o; by eexists|].
    constructor; [by eexists|].
    apply Forall_fmap, Forall_true. intros m. by eexists.
Qed.

(** C3, on the code — For the desired state [api] over the sample cluster,
    with and without [AutoApprove], [Apply] returns no error and has only
    printed (the known set, the identifiers received, the line ["orphan"]
    and the orphans): it has asked for no confirmation and has not called
    the client's apply operation. *)
Theorem Apply_lists_orphans_only :
  ∀ opts : ApplyOpts,
    ∃ effs,
      @Apply samples.X_cluster samples.k_cluster [samples.api] opts
             samples.in_turn = Some (effs, None) ∧
      Print (OutLine "orphan") ∈ effs ∧
      (∀ p expected, Confirm p expected ∉ effs) ∧
      (∀ state' opts', Mutate state' opts' ∉ effs).
Proof.
  intros opts.
  destruct (@Apply samples.X_cluster samples.k_cluster [samples.api] opts
              samples.in_turn) as [[effs err]|] eqn:Happ;
    [|by vm_compute in Happ].
  pose proof (@Apply_only_prints samples.X_cluster _ _ _ _ _ _ Happ) as Hpr.
  rewrite Forall_forall in Hpr.
  exists effs. split; [|split; [|split]].
  - vm_compute in Happ. by simplify_eq.
  - vm_compute in Happ. simplify_eq. do 5 right. left.
  - intros p expected Hin. by destruct (Hpr _ Hin).
  - intros state' opts' Hin. by destruct (Hpr _ Hin).
Qed.

(** * Further properties of the engine *)

(** ** Construction *)

(** [New] yields an engine or an error, never both and never neither; it
    yields an engine exactly when the client is created and its information
    is obtained.  A failure to create the client comes back wrapped with
    ["creating client"], a failure of [Info] comes back as it is. *)
Theorem New_engine_or_error `{Externals} (c : v1alpha1.Config) :
  let made := client_New (v1alpha1.APIServer (v1alpha1.Config_Spec c)) in
  ((New c).1 = None ↔ is_Some (New c).2) ∧
  (is_Some (New c).1 ↔
     made.2 = None ∧ (client.Client_Info made.1).2 = None) ∧
  (∀ err, made.2 = Some err →
     New c = (None, Some (Wrapped err "creating client"))) ∧
  (∀ err, made.2 = None → (client.Client_Info made.1).2 = Some err →
     New c = (None, Some err)).
Proof.
  unfold New. cbv zeta.
  destruct (client_New _) as [cl [e|]]; simpl.
  - split; [by split; eauto|]. split; [|split].
    + split; [by intros [? ?]|by intros [? _]].
    + by intros err [= ->].
    + done.
  - destruct (client.Client_Info cl) as [i [e|]]; simpl.
    + split; [by split; eauto|]. split; [|split].
      * split; [by intros [? ?]|by intros [_ ?]].
      * done.
      * by intros err _ [= ->].
    + split; [split; [done|by intros [? ?]]|]. split; [|split].
      * split; eauto.
      * done.
      * done.
Qed.

Lemma New_shape `{Externals} (c : v1alpha1.Config) (k : Kubernetes) :
  (New c).1 = Some k →
  let made := client_New (v1alpha1.APIServer (v1alpha1.Config_Spec c)) in
  ctl k = made.1 ∧
  Info k = (client.Client_Info made.1).1 ∧
  dom (differs k) = {[ "native"; "subset" ]} ∧
  differs k !! "native" = Some (client.DiffServerSide (ctl k)) ∧
  differs k !! "subset" = Some (SubsetDiffer (ctl k)) ∧
  v1alpha1.Config_Metadata (Env k) = v1alpha1.Config_Metadata c ∧
  v1alpha1.APIServer (v1alpha1.Config_Spec (Env k))
    = v1alpha1.APIServer (v1alpha1.Config_Spec c) ∧
  v1alpha1.Namespace (v1alpha1.Config_Spec (Env k))
    = v1alpha1.Namespace (v1alpha1.Config_Spec c) ∧
  v1alpha1.DiffStrategy (v1alpha1.Config_Spec (Env k)) ≠ "".
Proof.
  unfold New. cbv zeta.
  destruct (client_New _) as [cl [e|]]; simpl; [done|].
  destruct (client.Client_Info cl) as [i [e|]]; simpl; [done|].
  intros [= <-]. simpl. split; [done|]. split; [done|]. split; [|split; [|split]].
  - rewrite !dom_insert_L, dom_empty_L. set_solver.
  - rewrite lookup_insert_ne by done. by rewrite lookup_insert_eq.
  - by rewrite lookup_insert_eq.
  - case_bool_decide as Hcfg; [|by destruct c].
    destruct (semver.LessThan _ _); done.
Qed.

(** The engine that [New] builds holds the client it created and the
    information snapshot it took, registers exactly the two strategies
    ["native"] (the client's server-side diff) and ["subset"] (the subset
    differ over that client), and carries the given configuration with
    nothing but the diff strategy touched, which is never empty. *)
Theorem New_engine_shape `{Externals} (c : v1alpha1.Config) (k : Kubernetes) :
  (New c).1 = Some k →
  let made := client_New (v1alpha1.APIServer (v1alpha1.Config_Spec c)) in
  ctl k = made.1 ∧
  Info k = (client.Client_Info made.1).1 ∧
  dom (differs k) = {[ "native"; "subset" ]} ∧
  differs k !! "native" = Some (client.DiffServerSide (ctl k)) ∧
  differs k !! "subset" = Some (SubsetDiffer (ctl k)) ∧
  v1alpha1.Config_Metadata (Env k) = v1alpha1.Config_Metadata c ∧
  v1alpha1.APIServer (v1alpha1.Config_Spec (Env k))
    = v1alpha1.APIServer (v1alpha1.Config_Spec c) ∧
  v1alpha1.Namespace (v1alpha1.Config_Spec (Env k))
    = v1alpha1.Namespace (v1alpha1.Config_Spec c) ∧
  v1alpha1.DiffStrategy (v1alpha1.Config_Spec (Env k)) ≠ "".
Proof. exact (New_shape c k). Qed.

Lemma New_engine_shape_witness :
  let X := samples.externals (samples.client_of samples.v1_12_9 samples.quiet) in
  let k := samples.engine (samples.client_of samples.v1_12_9 samples.quiet)
                          samples.env_subset in
  let made := @client_New X (v1alpha1.APIServer (v1alpha1.Config_Spec samples.env)) in
  ctl k = made.1 ∧
  Info k = (client.Client_Info made.1).1 ∧
  dom (differs k) = {[ "native"; "subset" ]} ∧
  differs k !! "native" = Some (client.DiffServerSide (ctl k)) ∧
  differs k !! "subset" = Some (@SubsetDiffer X (ctl k)) ∧
  v1alpha1.Config_Metadata (Env k) = v1alpha1.Config_Metadata samples.env ∧
  v1alpha1.APIServer (v1alpha1.Config_Spec (Env k))
    = v1alpha1.APIServer (v1alpha1.Config_Spec samples.env) ∧
  v1alpha1.Namespace (v1alpha1.Config_Spec (Env k))
    = v1alpha1.Namespace (v1alpha1.Config_Spec samples.env) ∧
  v1alpha1.DiffStrategy (v1alpha1.Config_Spec (Env k)) ≠ "".
Proof.
  intros X k.
  apply (@New_engine_shape X samples.env k). reflexivity.
Defined.

(** ** Construction, then diffing *)

(** On an engine built by [New], [Diff] panics exactly when the name it
    resolves is neither ["native"] nor ["subset"].  So with no per-call
    strategy and a configuration that names no strategy or one of these
    two, [Diff] returns. *)
Theorem New_Diff_panics_iff `{Externals} (c : v1alpha1.Config) (k : Kubernetes)
    (state : manifest.List) (opts : DiffOpts) :
  (New c).1 = Some k →
  ((∃ reason, Diff k state opts = Panics reason) ↔
     Diff_strategy k opts ≠ "native" ∧ Diff_strategy k opts ≠ "subset") ∧
  (Strategy opts = "" →
   v1alpha1.DiffStrategy (v1alpha1.Config_Spec c) ∈ ["" ; "native"; "subset"] →
   ∃ res, Diff k state opts = Returns res).
Proof.
  intros Hnew.
  assert (Hreg : ∀ name, is_Some (differs k !! name) ↔
                         name = "native" ∨ name = "subset").
  { intros name. rewrite <- elem_of_dom.
    destruct (New_shape c k Hnew) as (_ & _ & -> & _). set_solver. }
  assert (Hdiff : (∃ reason, Diff k state opts = Panics reason) ↔
                  differs k !! Diff_strategy k opts = None).
  { unfold Diff. cbv zeta.
    destruct (differs k !! Diff_strategy k opts) as [differ|];
      [|split; [done|intros _; by eexists]].
    split; [|done]. intros [reason Hp].
    destruct (differ state) as [[d|] [e|]]; try done.
    by destruct (Summarize opts). }
  split.
  - rewrite Hdiff, eq_None_not_Some, Hreg. tauto.
  - intros Hopt Hcfg.
    assert (Hname : Diff_strategy k opts = "native" ∨
                    Diff_strategy k opts = "subset").
    { unfold Diff_strategy. rewrite bool_decide_false by (by intros []).
      revert Hnew. unfold New. cbv zeta.
      destruct (client_New _) as [cl [e|]]; simpl; [done|].
      destruct (client.Client_Info cl) as [i [e|]]; simpl; [done|].
      intros [= <-]. simpl.
      case_bool_decide as Hc.
      - destruct (semver.LessThan _ _); simpl; tauto.
      - rewrite !elem_of_cons, elem_of_nil in Hcfg. tauto. }
    apply Hreg in Hname as [differ Hd].
    unfold Diff. cbv zeta. rewrite Hd.
    destruct (differ state) as [[d|] [e|]]; eauto.
    destruct (Summarize opts); eauto.
Qed.

Lemma New_Diff_panics_iff_witness :
  let X := samples.externals (samples.client_of samples.v1_12_9 samples.quiet) in
  let k := samples.engine (samples.client_of samples.v1_12_9 samples.quiet)
                          samples.env_subset in
  ((∃ reason, @Diff X k [samples.api] (mkDiffOpts false "") = Panics reason) ↔
     Diff_strategy k (mkDiffOpts false "") ≠ "native" ∧
     Diff_strategy k (mkDiffOpts false "") ≠ "subset") ∧
  (("" : string) = "" →
   v1alpha1.DiffStrategy (v1alpha1.Config_Spec samples.env)
     ∈ ["" ; "native"; "subset"] →
   ∃ res, @Diff X k [samples.api] (mkDiffOpts false "") = Returns res).
Proof.
  intros X k.
  apply (@New_Diff_panics_iff X samples.env k [samples.api]
           (mkDiffOpts false "")).
  reflexivity.
Defined.

(** On an engine built by [New], the strategy ["native"] is the client's
    server-side diff and the strategy ["subset"] is the subset differ over
    that client: [Diff] returns what they yield, with the diff dropped when
    there is an error, and a diff text handed to [util.Diffstat] when a
    summary is asked for. *)
Theorem New_Diff_delegates `{Externals} (c : v1alpha1.Config) (k : Kubernetes)
    (state : manifest.List) (opts : DiffOpts) :
  (New c).1 = Some k →
  let summarised r :=
    match plain r with
    | (Some d, None) => if Summarize opts then util_Diffstat d else (Some d, None)
    | r' => r'
    end in
  (Diff_strategy k opts = "native" →
   Diff k state opts
   = Returns (summarised (client.DiffServerSide (ctl k) state))) ∧
  (Diff_strategy k opts = "subset" →
   Diff k state opts = Returns (summarised (SubsetDiffer (ctl k) state))).
Proof.
  intros Hnew summarised.
  destruct (New_shape c k Hnew) as (_ & _ & _ & Hn & Hs & _).
  split; intros Hname; unfold Diff; cbv zeta; rewrite Hname.
  - rewrite Hn. unfold summarised, plain.
    destruct (client.DiffServerSide (ctl k) state) as [[d|] [e|]];
      try done. by destruct (Summarize opts).
  - rewrite Hs. unfold summarised, plain.
    destruct (SubsetDiffer (ctl k) state) as [[d|] [e|]]; try done.
    by destruct (Summarize opts).
Qed.

Lemma New_Diff_delegates_witness :
  let X := samples.externals (samples.client_of samples.v1_12_9 samples.quiet) in
  let k := samples.engine (samples.client_of samples.v1_12_9 samples.quiet)
                          samples.env_subset in
  let opts := mkDiffOpts true "" in
  let summarised r :=
    match plain r with
    | (Some d, None) =>
      if Summarize opts then @util_Diffstat X d else (Some d, None)
    | r' => r'
    end in
  (Diff_strategy k opts = "native" →
   @Diff X k [samples.api] opts
   = Returns (summarised (client.DiffServerSide (ctl k) [samples.api]))) ∧
  (Diff_strategy k opts = "subset" →
   @Diff X k [samples.api] opts
   = Returns (summarised (@SubsetDiffer X (ctl k) [samples.api]))).
Proof.
  intros X k opts.
  apply (@New_Diff_delegates X samples.env k [samples.api] opts).
  reflexivity.
Defined.

(** ** Object names *)

Lemma append_cons (a : Ascii.ascii) (s t : string) :
  (String a s ++ t)%string = String a (s ++ t)%string.
Proof. reflexivity. Qed.

Lemma append_nil_l (t : string) : ("" ++ t)%string = t.
Proof. reflexivity. Qed.

Lemma append_slash_inj (k1 k2 n1 n2 : string) :
  has_slash k1 = false → has_slash k2 = false →
  (k1 ++ "/" ++ n1 = k2 ++ "/" ++ n2)%string → k1 = k2 ∧ n1 = n2.
Proof.
  revert k2. induction k1 as [|a k1 IH]; intros [|b k2];
    rewrite ?append_cons, ?append_nil_l; simpl.
  - intros _ _ [= ->]. done.
  - intros _ Hb [= <- _]. rewrite bool_decide_true in Hb by done. done.
  - intros Ha _ [= -> _]. rewrite bool_decide_true in Ha by done. done.
  - intros Ha Hb [= -> Heq].
    apply orb_false_iff in Ha as [_ Ha]. apply orb_false_iff in Hb as [_ Hb].
    destruct (IH k2 Ha Hb Heq) as [-> ->]. done.
Qed.

(** For manifests whose kinds hold no [/], [objectspec] names the kind and
    the name and nothing else: two manifests have the same object
    specification exactly when their kinds and their names agree, whatever
    their namespaces. *)
Theorem objectspec_kind_and_name (m1 m2 : Manifest) :
  has_slash (m_kind m1) = false → has_slash (m_kind m2) = false →
  (objectspec m1 = objectspec m2 ↔
   m_kind m1 = m_kind m2 ∧
   meta_name (m_metadata m1) = meta_name (m_metadata m2)) ∧
  (Manifest_Identifier m1 = Manifest_Identifier m2 ↔
   objectspec m1 = objectspec m2 ∧
   meta_namespace (m_metadata m1) = meta_namespace (m_metadata m2)).
Proof.
  intros H1 H2.
  assert (Hspec : objectspec m1 = objectspec m2 ↔
                  m_kind m1 = m_kind m2 ∧
                  meta_name (m_metadata m1) = meta_name (m_metadata m2)).
  { unfold objectspec. split.
    - by apply append_slash_inj.
    - by intros [-> ->]. }
  split; [done|]. rewrite Hspec. unfold Manifest_Identifier. split.
  - intros [= -> -> ->]. done.
  - intros [[-> ->] ->]. done.
Qed.

Lemma objectspec_kind_and_name_witness :
  (objectspec samples.worker = objectspec samples.worker' ↔
   m_kind samples.worker = m_kind samples.worker' ∧
   meta_name (m_metadata samples.worker)
   = meta_name (m_metadata samples.worker')) ∧
  (Manifest_Identifier samples.worker = Manifest_Identifier samples.worker' ↔
   objectspec samples.worker = objectspec samples.worker' ∧
   meta_namespace (m_metadata samples.worker)
   = meta_namespace (m_metadata samples.worker')).
Proof.
  apply (objectspec_kind_and_name samples.worker samples.worker');
    reflexivity.
Defined.

(** Without the condition on the kinds the object specification is
    ambiguous. *)
Example objectspec_ambiguous :
  objectspec (mkManifest "a/b" (mkMetadata "c" "" ∅ "") "")
  = objectspec (mkManifest "a" (mkMetadata "b/c" "" ∅ "") "").
Proof. reflexivity. Qed.

(** ** The known set *)

Lemma known_of_acc_lookup (state : manifest.List)
    (acc : gmap Identifier bool) (id : Identifier) :
  foldl (λ known m, <[Manifest_Identifier m := true]> known) acc state !! id
  = if decide (id ∈ Manifest_Identifier <$> state) then Some true
    else acc !! id.
Proof.
  revert acc. induction state as [|m state IH]; intros acc.
  - case_decide as Hin; [by apply elem_of_nil in Hin|done].
  - rewrite fmap_cons. cbn [foldl]. rewrite IH.
    destruct (decide (id ∈ Manifest_Identifier <$> state)) as [Hin|Hin].
    + rewrite decide_True; [done|]. by right.
    + destruct (decide (Manifest_Identifier m = id)) as [<-|Hne].
      * rewrite decide_True by left. by rewrite lookup_insert_eq.
      * rewrite decide_False.
        { by rewrite lookup_insert_ne. }
        rewrite elem_of_cons. intros [?|?]; [congruence|done].
Qed.

Lemma known_of_same (state1 state2 : manifest.List) :
  (∀ id, known_of state1 !! id
         = if decide (id ∈ Manifest_Identifier <$> state1) then Some true
           else None) ∧
  size (known_of state1) ≤ length state1 ∧
  (known_of state1 = known_of state2 ↔
   ∀ id, id ∈ Manifest_Identifier <$> state1 ↔
         id ∈ Manifest_Identifier <$> state2).
Proof.
  assert (Hlook : ∀ state id,
            known_of state !! id
            = if decide (id ∈ Manifest_Identifier <$> state) then Some true
              else None).
  { intros state id. unfold known_of. by rewrite known_of_acc_lookup. }
  split; [apply Hlook|]. split.
  - unfold known_of.
    assert (Hsize : ∀ (state : manifest.List) (acc : gmap Identifier bool),
              size (foldl (λ known m, <[Manifest_Identifier m := true]> known)
                          acc state)
              ≤ size acc + length state).
    { induction state as [|m state IH]; intros acc; simpl; [lia|].
      etrans; [apply IH|].
      destruct (acc !! Manifest_Identifier m) eqn:Hm.
      - rewrite map_size_insert_Some by eauto. lia.
      - rewrite map_size_insert_None by done. lia. }
    pose proof (Hsize state1 ∅) as Hs. rewrite map_size_empty in Hs. lia.
  - split.
    + intros Heq id. pose proof (Hlook state1 id) as H1.
      pose proof (Hlook state2 id) as H2. rewrite Heq in H1.
      rewrite H1 in H2. repeat case_decide; done.
    + intros Hsame. apply map_eq. intros id. rewrite !Hlook.
      specialize (Hsame id). repeat case_decide; tauto.
Qed.

(** The known set built from the desired state holds exactly the
    Identifiers of its manifests, each with the value [true], however often
    and in whatever order they occur; so two desired states build the same
    set exactly when they have the same Identifiers. *)
Theorem known_of_identifiers (state1 state2 : manifest.List) :
  (∀ id, known_of state1 !! id
         = if decide (id ∈ Manifest_Identifier <$> state1) then Some true
           else None) ∧
  size (known_of state1) ≤ length state1 ∧
  (known_of state1 = known_of state2 ↔
   ∀ id, id ∈ Manifest_Identifier <$> state1 ↔
         id ∈ Manifest_Identifier <$> state2).
Proof. exact (known_of_same state1 state2). Qed.

(** [listOrphaned] looks at the desired state through its Identifiers only:
    two desired states with the same Identifiers (in any order, with any
    repetitions, with any bodies) give the same result under every
    schedule. *)
Theorem listOrphaned_desired_by_identifier `{Externals} (k : Kubernetes)
    (state1 state2 : manifest.List) (sched : list action) :
  (∀ id, id ∈ Manifest_Identifier <$> state1 ↔
         id ∈ Manifest_Identifier <$> state2) →
  listOrphaned k state1 sched = listOrphaned k state2 sched.
Proof.
  intros Hsame.
  assert (Hk : known_of state1 = known_of state2)
    by (by apply known_of_same).
  unfold listOrphaned, spawn. by rewrite Hk.
Qed.

Lemma listOrphaned_desired_by_identifier_witness :
  @listOrphaned samples.X_cluster samples.k_cluster
                [samples.worker; samples.api] samples.in_turn
  = @listOrphaned samples.X_cluster samples.k_cluster
                  [samples.api; samples.worker'; samples.api] samples.in_turn.
Proof.
  apply (@listOrphaned_desired_by_identifier samples.X_cluster
           samples.k_cluster [samples.worker; samples.api]
           [samples.api; samples.worker'; samples.api] samples.in_turn).
  intros id. rewrite !fmap_cons, !elem_of_cons.
  change (Manifest_Identifier samples.worker')
    with (Manifest_Identifier samples.worker).
  tauto.
Defined.

(** ** The collecting loop *)

Lemma step_cases `{Externals} (k : Kubernetes) (known : gmap Identifier bool)
    (a : action) (s s' : system) :
  step k known a s = Some s' →
  crashed s = false ∧
  match a with
  | Query j =>
    ∃ g, goroutines s !! j = Some g ∧ g_pc g = AtQuery ∧
         goroutines s'
         = <[j := set_pc g (parallelGetByLabels k (g_kind g) (g_envName g))]>
             (goroutines s) ∧
         loop_i s' = loop_i s ∧ orphaned s' = orphaned s ∧
         result s' = result s ∧ crashed s' = false
  | RecvR j =>
    ∃ g list, goroutines s !! j = Some g ∧ g_pc g = AtSendList list ∧
         result s = None ∧ loop_i s < length kinds ∧
         goroutines s' = <[j := set_pc g Finished]> (goroutines s) ∧
         loop_i s' = S (loop_i s) ∧
         orphaned s' = collect known (orphaned s) list ∧
         result s' = None ∧ crashed s' = false
  | RecvE j =>
    ∃ g list err, goroutines s !! j = Some g ∧ g_pc g = AtSendErr list err ∧
         result s = None ∧ loop_i s < length kinds ∧
         goroutines s' = <[j := set_pc g (AtSendList list)]> (goroutines s) ∧
         loop_i s' = S (loop_i s) ∧ orphaned s' = orphaned s ∧
         result s' = None ∧ crashed s' = false
  | Return =>
    result s = None ∧ ¬ loop_i s < length kinds ∧
    goroutines s' = goroutines s ∧ loop_i s' = loop_i s ∧
    orphaned s' = orphaned s ∧ crashed s' = false ∧
    result s' = Some match lastErr s with
                     | Some err => (None, Some err)
                     | None => (Some (orphaned s), None)
                     end
  | SendClosed j =>
    ∃ g, goroutines s !! j = Some g ∧ pending g ∧ g_pc g ≠ AtQuery ∧
         is_Some (result s) ∧
         goroutines s' = <[j := set_pc g Panicked]> (goroutines s) ∧
         loop_i s' = loop_i s ∧ orphaned s' = orphaned s ∧
         result s' = result s ∧ crashed s' = true
  end.
Proof.
  unfold step. destruct (crashed s); [done|]. intros Hstep. split; [done|].
  destruct a as [j|j|j| |j].
  - destruct (goroutines s !! j) as [g|]; simpl in Hstep; [|done].
    destruct (g_pc g) eqn:Hpc; try done. injection Hstep as <-.
    exists g. by rewrite Hpc.
  - destruct (goroutines s !! j) as [g|]; simpl in Hstep; [|done].
    destruct (g_pc g) as [|? ?|list| |] eqn:Hpc; try done.
    destruct (in_loop s) eqn:Hin; [|done]. injection Hstep as <-.
    apply in_loop_true in Hin as [? ?]. exists g, list. by rewrite Hpc.
  - destruct (goroutines s !! j) as [g|]; simpl in Hstep; [|done].
    destruct (g_pc g) as [|list err|?| |] eqn:Hpc; try done.
    destruct (in_loop s) eqn:Hin; [|done]. injection Hstep as <-.
    apply in_loop_true in Hin as [? ?]. exists g, list, err. by rewrite Hpc.
  - destruct (bool_decide (result s = None)) eqn:Hres; [|done].
    destruct (bool_decide (loop_i s < length kinds)) eqn:Hlt; [done|].
    cbn [andb negb] in Hstep. injection Hstep as <-.
    apply bool_decide_eq_true in Hres. apply bool_decide_eq_false in Hlt.
    done.
  - destruct (goroutines s !! j) as [g|]; simpl in Hstep; [|done].
    exists g. unfold pending.
    destruct (g_pc g), (result s); simplify_eq; simpl; eauto 10.
Qed.

Lemma run_orphaned `{Externals} (k : Kubernetes) (known : gmap Identifier bool)
    (sched : list action) (s s' : system) :
  run k known sched s = Some s' →
  orphaned s'
  = orphaned s
    ++ concat (filter (λ m, known_at known (Manifest_Identifier m) = false)
                 <$> received k known sched s) ∧
  loop_i s'
  = loop_i s + length (observed k known sched s)
    + length (received k known sched s).
Proof.
  revert s. induction sched as [|a sched IH]; intros s Hrun;
    simpl in Hrun |- *.
  - injection Hrun as <-. rewrite app_nil_r. split; [done|lia].
  - destruct (step k known a s) as [s1|] eqn:Hstep; [|done]. simpl in Hrun.
    destruct (IH _ Hrun) as [-> ->].
    apply step_cases in Hstep as [_ Hstep].
    destruct a as [j|j|j| |j].
    + destruct Hstep as (g & _ & _ & _ & -> & -> & _). split; [done|].
      simpl. lia.
    + destruct Hstep as (g & list & Hj & Hpc & _ & _ & _ & -> & -> & _).
      rewrite Hj. simpl. rewrite Hpc. simpl.
      rewrite collect_filter, <- app_assoc. split; [done|]. lia.
    + destruct Hstep as (g & list & err & Hj & Hpc & _ & _ & _ & -> & -> & _).
      rewrite Hj. simpl. rewrite Hpc. simpl. split; [done|]. lia.
    + destruct Hstep as (_ & _ & _ & -> & -> & _). split; [done|]. simpl. lia.
    + destruct Hstep as (g & _ & _ & _ & _ & _ & -> & -> & _).
      split; [done|]. simpl. lia.
Qed.

Lemma run_returned `{Externals} (k : Kubernetes) (state : manifest.List)
    (sched : list action) (s s' : system) :
  inv k state s →
  (∀ res, result s = Some res →
     loop_i s = length kinds ∧
     ∀ o e, res = (Some o, e) → o = orphaned s) →
  run k (known_of state) sched s = Some s' →
  ∀ res, result s' = Some res →
    loop_i s' = length kinds ∧ ∀ o e, res = (Some o, e) → o = orphaned s'.
Proof.
  revert s. induction sched as [|a sched IH]; intros s Hinv Hs Hrun;
    simpl in Hrun.
  - by injection Hrun as <-.
  - destruct (step k (known_of state) a s) as [s1|] eqn:Hstep; [|done].
    simpl in Hrun. eapply (IH s1); [by eapply step_inv| |done].
    apply step_cases in Hstep as [_ Hstep].
    destruct a as [j|j|j| |j].
    + destruct Hstep as (g & _ & _ & _ & -> & -> & -> & _). done.
    + destruct Hstep as (g & list & _ & _ & _ & _ & _ & _ & _ & -> & _). done.
    + destruct Hstep as (g & l & e & _ & _ & _ & _ & _ & _ & _ & -> & _). done.
    + destruct Hstep as (Hnone & Hge & _ & -> & -> & _ & ->).
      pose proof (loop_bound _ _ _ (inv_loop _ _ _ Hinv Hnone)).
      intros res [= <-]. split; [lia|].
      destruct (lastErr s); by intros o' e' [= <-].
    + destruct Hstep as (g & _ & _ & _ & _ & _ & -> & -> & -> & _). done.
Qed.

Lemma run_arrival_order `{Externals} (k : Kubernetes)
    (state : manifest.List) (sched : list action)
    (res : option manifest.List * option error) :
  listOrphaned k state sched = Some res →
  let lists := received k (known_of state) sched (spawn k state) in
  let errors := observed k (known_of state) sched (spawn k state) in
  length errors + length lists = length kinds ∧
  ∀ orphans, res.1 = Some orphans →
    orphans = concat ((λ list, difference list state) <$> lists).
Proof.
  intros Hres lists errors.
  destruct (listOrphaned_final _ _ _ _ Hres) as (s & Hrun & Hr & _ & _).
  destruct (run_orphaned _ _ _ _ _ Hrun) as [Ho Hi].
  destruct (run_returned k state sched (spawn k state) s) with (res := res)
    as [Hcount Horph]; [apply inv_spawn|done|done|done|].
  split.
  - rewrite Hi in Hcount. simpl in Hcount. done.
  - intros orphans Hsome. destruct res as [o e]. simpl in Hsome. subst o.
    rewrite (Horph orphans e eq_refl), Ho. simpl. f_equal.
    apply list_fmap_ext. intros _ list _. apply difference_known.
Qed.

(** The list that [listOrphaned] returns is put together in order of
    arrival: it is the concatenation, one received list after the other, of
    the manifests of that list whose Identifier is not a desired one, in the
    order of the list.  And the loop has by then received exactly as many
    messages, errors and lists together, as there are kinds. *)
Theorem listOrphaned_arrival_order `{Externals} (k : Kubernetes)
    (state : manifest.List) (sched : list action)
    (res : option manifest.List * option error) :
  listOrphaned k state sched = Some res →
  let lists := received k (known_of state) sched (spawn k state) in
  let errors := observed k (known_of state) sched (spawn k state) in
  length errors + length lists = length kinds ∧
  ∀ orphans, res.1 = Some orphans →
    orphans = concat ((λ list, difference list state) <$> lists).
Proof. exact (run_arrival_order k state sched res). Qed.

Lemma listOrphaned_arrival_order_witness :
  let lists := @received samples.X_cluster samples.k_cluster
                 (known_of [samples.api]) samples.in_turn
                 (spawn samples.k_cluster [samples.api]) in
  let errors := @observed samples.X_cluster samples.k_cluster
                  (known_of [samples.api]) samples.in_turn
                  (spawn samples.k_cluster [samples.api]) in
  length errors + length lists = length kinds ∧
  ∀ orphans,
    (Some [samples.worker; samples.worker'], @None error).1 = Some orphans →
    orphans = concat ((λ list, difference list [samples.api]) <$> lists).
Proof.
  apply (@listOrphaned_arrival_order samples.X_cluster samples.k_cluster
           [samples.api] samples.in_turn
           (Some [samples.worker; samples.worker'], None)).
  vm_compute. reflexivity.
Defined.

(** ** What is left over when the function has returned *)

Lemma sum_above {A} (f : A → nat) (l : list A) (x : A) :
  Forall (λ x, 1 ≤ f x) l → x ∈ l → 2 ≤ f x → length l < sum_list_with f l.
Proof.
  induction 1 as [|y l Hy Hl IH]; simpl; intros Hin Hx.
  - by apply elem_of_nil in Hin.
  - assert (length l ≤ sum_list_with f l).
    { clear -Hl. induction Hl; simpl; lia. }
    apply elem_of_cons in Hin as [<-|Hin]; [lia|].
    specialize (IH Hin Hx). lia.
Qed.

Lemma query_pending `{Externals} (k : Kubernetes) (g : goroutine) :
  pending (set_pc g (parallelGetByLabels k (g_kind g) (g_envName g))) ∧
  g_pc (set_pc g (parallelGetByLabels k (g_kind g) (g_envName g))) ≠ AtQuery.
Proof.
  unfold pending, parallelGetByLabels. simpl.
  by destruct (client.GetByLabels _ _ _ _) as [l [e|]].
Qed.

Lemma pending_at_return `{Externals} (k : Kubernetes) (state : manifest.List)
    (s : system) :
  inv k state s → result s = None → ¬ loop_i s < length kinds →
  (∃ kind, kind ∈ kinds ∧ fails k kind) →
  Exists pending (goroutines s).
Proof.
  intros Hinv Hres Hge (kind & Hkin & Hfail).
  pose proof (inv_kinds _ _ _ Hinv) as Hk.
  destruct (inv_loop _ _ _ Hinv Hres) as [La Lc Lb Lo Ln Le Lp].
  destruct (decide (Exists pending (goroutines s))) as [|Hno]; [done|].
  exfalso. apply not_Exists_Forall in Hno; [|apply _].
  assert (Hfin : Forall (λ g, g_pc g = Finished) (goroutines s)).
  { rewrite Forall_forall in Hno, Lp |- *. intros g Hg.
    specialize (Hno g Hg). specialize (Lp g Hg). unfold pending in Hno.
    simpl in Hno. by destruct (g_pc g). }
  rewrite <- Hk in Hkin. apply list_elem_of_fmap in Hkin as (g & -> & Hg).
  assert (Hlen : length (goroutines s) = length kinds)
    by (by rewrite <- Hk, length_fmap).
  assert (length (goroutines s) < sum_list_with (delivered k) (goroutines s)).
  { apply (sum_above _ _ g); [|done|].
    - eapply Forall_impl; [exact Hfin|]. intros g' Hg'. unfold delivered.
      rewrite Hg'. destruct (decide _); lia.
    - rewrite Forall_forall in Hfin. unfold delivered. rewrite (Hfin g Hg).
      by rewrite decide_True. }
  lia.
Qed.

Lemma step_leftover `{Externals} (k : Kubernetes) (state : manifest.List)
    (a : action) (s s' : system) :
  (∃ kind, kind ∈ kinds ∧ fails k kind) →
  inv k state s →
  (result s = None ∨ crashed s = true ∨ Exists pending (goroutines s)) →
  step k (known_of state) a s = Some s' →
  result s' = None ∨ crashed s' = true ∨ Exists pending (goroutines s').
Proof.
  intros Hfail Hinv Hs Hstep. apply step_cases in Hstep as [Hcr Hstep].
  destruct a as [j|j|j| |j].
  - destruct Hstep as (g & Hj & _ & -> & _ & _ & -> & _).
    destruct (result s); [|by left]. right. right.
    apply Exists_exists. eexists. split; [|apply (query_pending k g)].
    eapply list_elem_of_lookup_2. apply list_lookup_insert_eq.
    by eapply lookup_lt_Some.
  - destruct Hstep as (g & list & _ & _ & _ & _ & _ & _ & _ & -> & _).
    by left.
  - destruct Hstep as (g & l & e & _ & _ & _ & _ & _ & _ & _ & -> & _).
    by left.
  - destruct Hstep as (Hnone & Hge & -> & _). right. right.
    by eapply pending_at_return.
  - destruct Hstep as (g & _ & _ & _ & _ & _ & _ & _ & _ & ->). tauto.
Qed.

Lemma run_leftover `{Externals} (k : Kubernetes) (state : manifest.List)
    (sched : list action) (s s' : system) :
  (∃ kind, kind ∈ kinds ∧ fails k kind) →
  inv k state s →
  (result s = None ∨ crashed s = true ∨ Exists pending (goroutines s)) →
  run k (known_of state) sched s = Some s' →
  result s' = None ∨ crashed s' = true ∨ Exists pending (goroutines s').
Proof.
  intros Hfail. revert s. induction sched as [|a sched IH];
    intros s Hinv Hs Hrun; simpl in Hrun.
  - by injection Hrun as <-.
  - destruct (step k (known_of state) a s) as [s1|] eqn:Hstep; [|done].
    simpl in Hrun. eapply (IH s1); [by eapply step_inv| |done].
    by eapply step_leftover.
Qed.

(** When a query fails, the return of [listOrphaned] leaves a goroutine
    behind: in every state after the return in which the process has not yet
    died, some goroutine still has its query or a send before it, and from
    there one or two steps of that goroutine end in a send on a closed
    channel. *)
Theorem listOrphaned_leftover_send `{Externals} (k : Kubernetes)
    (state : manifest.List) (sched : list action) (s : system) :
  (∃ kind, kind ∈ kinds ∧ fails k kind) →
  run k (known_of state) sched (spawn k state) = Some s →
  is_Some (result s) → crashed s = false →
  Exists pending (goroutines s) ∧
  ∃ sched' s',
    length sched' ≤ 2 ∧
    run k (known_of state) sched' s = Some s' ∧ crashed s' = true.
Proof.
  intros Hfail Hrun [res Hres] Hcr.
  assert (Hpend : Exists pending (goroutines s)).
  { destruct (run_leftover k state sched (spawn k state) s Hfail)
      as [Hn|[Hc|Hp]]; [apply inv_spawn|by left|done|congruence|congruence|done]. }
  split; [done|].
  apply Exists_exists in Hpend as (g & Hg & Hp).
  apply list_elem_of_lookup in Hg as [j Hj].
  assert (Hclosed : ∀ s1 g1,
            crashed s1 = false → result s1 = Some res →
            goroutines s1 !! j = Some g1 → pending g1 → g_pc g1 ≠ AtQuery →
            ∃ s', step k (known_of state) (SendClosed j) s1 = Some s' ∧
                  crashed s' = true).
  { intros s1 g1 Hc1 Hr1 Hj1 Hp1 Hq1. unfold step. rewrite Hc1, Hj1. simpl.
    rewrite Hr1. unfold pending in Hp1.
    destruct (g_pc g1); try done; eexists; split; done. }
  assert (Hdec : g_pc g = AtQuery ∨ g_pc g ≠ AtQuery)
    by (destruct (g_pc g); (by left) || (by right)).
  destruct Hdec as [Hq|Hq].
  - destruct (query_pending k g) as [Hp' Hq'].
    set (s1 := {| goroutines :=
                    <[j := set_pc g (parallelGetByLabels k (g_kind g)
                                       (g_envName g))]> (goroutines s);
                  calls := calls s ++ [query_of (g_kind g) (g_envName g)];
                  stdout := stdout s; loop_i := loop_i s;
                  orphaned := orphaned s; lastErr := lastErr s;
                  result := result s; crashed := false |}).
    assert (Hs1 : step k (known_of state) (Query j) s = Some s1).
    { unfold step. rewrite Hcr, Hj. simpl. by rewrite Hq. }
    destruct (Hclosed s1 _ eq_refl Hres
                (list_lookup_insert_eq _ _ _ (lookup_lt_Some _ _ _ Hj))
                Hp' Hq') as (s' & Hs' & Hc').
    exists [Query j; SendClosed j], s'. split; [simpl; lia|].
    simpl. rewrite Hs1. simpl. rewrite Hs'. done.
  - destruct (Hclosed s g Hcr Hres Hj Hp Hq) as (s' & Hs' & Hc').
    exists [SendClosed j], s'. split; [simpl; lia|].
    simpl. rewrite Hs'. done.
Qed.

Lemma listOrphaned_leftover_send_witness :
  ∃ s,
    @run samples.X_flaky samples.k_flaky (known_of []) samples.early
         (spawn samples.k_flaky []) = Some s ∧
    Exists pending (goroutines s) ∧
    ∃ sched' s',
      length sched' ≤ 2 ∧
      @run samples.X_flaky samples.k_flaky (known_of []) sched' s = Some s' ∧
      crashed s' = true.
Proof.
  eexists. split; [vm_compute; reflexivity|].
  apply (@listOrphaned_leftover_send samples.X_flaky samples.k_flaky []
           samples.early).
  - exists "ConfigMap". split; [by left|]. vm_compute. eauto.
  - vm_compute. reflexivity.
  - vm_compute. eauto.
  - reflexivity.
Defined.

Lemma finished_at_return `{Externals} (k : Kubernetes) (state : manifest.List)
    (s : system) :
  inv k state s → result s = None → ¬ loop_i s < length kinds →
  (∀ kind, kind ∈ kinds → ¬ fails k kind) →
  Forall (λ g, g_pc g = Finished) (goroutines s).
Proof.
  intros Hinv Hres Hge Hnf.
  pose proof (inv_kinds _ _ _ Hinv) as Hk.
  destruct (inv_loop _ _ _ Hinv Hres) as [La Lc Lb Lo Ln Le Lp].
  assert (Hlen : length (goroutines s) = length kinds)
    by (by rewrite <- Hk, length_fmap).
  assert (Hok : ∀ g, g ∈ goroutines s → ¬ fails k (g_kind g)).
  { intros g Hg. apply Hnf. rewrite <- Hk. by apply list_elem_of_fmap_2. }
  assert (Hle : Forall (λ g, delivered k g ≤ 1) (goroutines s)).
  { apply Forall_forall. intros g Hg. unfold delivered.
    rewrite !decide_False by auto. destruct (g_pc g); lia. }
  assert (Hone : Forall (λ g, delivered k g = 1) (goroutines s))
    by (apply (sum_full _ _ Hle); lia).
  rewrite Forall_forall in Hone |- *. intros g Hg.
  specialize (Hone g Hg). unfold delivered in Hone.
  rewrite !decide_False in Hone by auto. by destruct (g_pc g).
Qed.

Lemma step_nothing_left `{Externals} (k : Kubernetes) (state : manifest.List)
    (a : action) (s s' : system) :
  (∀ kind, kind ∈ kinds → ¬ fails k kind) →
  inv k state s →
  (is_Some (result s) → Forall (λ g, g_pc g = Finished) (goroutines s)) →
  step k (known_of state) a s = Some s' →
  crashed s' = false ∧
  (is_Some (result s') → Forall (λ g, g_pc g = Finished) (goroutines s')).
Proof.
  intros Hnf Hinv Hs Hstep. apply step_cases in Hstep as [Hcr Hstep].
  assert (Hno : ∀ j g, goroutines s !! j = Some g → g_pc g ≠ Finished →
                       ¬ is_Some (result s)).
  { intros j g Hj Hpc Hres. specialize (Hs Hres).
    rewrite Forall_forall in Hs. apply Hpc, Hs.
    by eapply list_elem_of_lookup_2. }
  destruct a as [j|j|j| |j].
  - destruct Hstep as (g & Hj & Hpc & _ & _ & _ & -> & ->). split; [done|].
    intros Hres. exfalso. apply (Hno j g Hj); [by rewrite Hpc|done].
  - destruct Hstep as (g & list & _ & _ & _ & _ & _ & _ & _ & -> & ->).
    split; [done|]. by intros [? ?].
  - destruct Hstep as (g & l & e & _ & _ & _ & _ & _ & _ & _ & -> & ->).
    split; [done|]. by intros [? ?].
  - destruct Hstep as (Hnone & Hge & -> & _ & _ & -> & _). split; [done|].
    intros _. by eapply finished_at_return.
  - destruct Hstep as (g & Hj & Hp & _ & Hres & _). exfalso.
    apply (Hno j g Hj); [|done]. unfold pending in Hp. by destruct (g_pc g).
Qed.

Lemma run_nothing_left `{Externals} (k : Kubernetes)
    (state : manifest.List) (sched : list action) (s : system) :
  (∀ kind, kind ∈ kinds → ¬ fails k kind) →
  run k (known_of state) sched (spawn k state) = Some s →
  crashed s = false ∧
  (is_Some (result s) →
   Forall (λ g, g_pc g = Finished) (goroutines s) ∧
   ∀ a, step k (known_of state) a s = None).
Proof.
  intros Hnf Hrun.
  assert (Hgen : ∀ sched s0,
            inv k state s0 → crashed s0 = false →
            (is_Some (result s0) →
             Forall (λ g, g_pc g = Finished) (goroutines s0)) →
            run k (known_of state) sched s0 = Some s →
            inv k state s ∧ crashed s = false ∧
            (is_Some (result s) →
             Forall (λ g, g_pc g = Finished) (goroutines s))).
  { clear sched Hrun. induction sched as [|a sched IH];
      intros s0 Hinv Hcr Hs0 Hrun; simpl in Hrun.
    - by injection Hrun as <-.
    - destruct (step k (known_of state) a s0) as [s1|] eqn:Hstep; [|done].
      simpl in Hrun.
      destruct (step_nothing_left k state a s0 s1 Hnf Hinv Hs0 Hstep).
      eapply (IH s1); [by eapply step_inv|done|done|done]. }
  destruct (Hgen sched (spawn k state)) as (Hinv & Hcr & Hfin);
    [apply inv_spawn|done|by intros [? ?]|done|].
  split; [done|]. intros Hres. split; [by apply Hfin|].
  intros a. destruct (step k (known_of state) a s) as [s'|] eqn:Hstep; [|done].
  exfalso. specialize (Hfin Hres). rewrite Forall_forall in Hfin.
  destruct Hres as [res Hres].
  apply step_cases in Hstep as [_ Hstep].
  assert (Hat : ∀ j g, goroutines s !! j = Some g → g_pc g = Finished).
  { intros j g Hj. apply Hfin. by eapply list_elem_of_lookup_2. }
  destruct a as [j|j|j| |j].
  - destruct Hstep as (g & Hj & Hpc & _). rewrite (Hat j g Hj) in Hpc. done.
  - destruct Hstep as (g & l & Hj & Hpc & _). rewrite (Hat j g Hj) in Hpc. done.
  - destruct Hstep as (g & l & e & Hj & Hpc & _).
    rewrite (Hat j g Hj) in Hpc. done.
  - destruct Hstep as (Hnone & _). congruence.
  - destruct Hstep as (g & Hj & Hp & _). unfold pending in Hp.
    by rewrite (Hat j g Hj) in Hp.
Qed.

(** When no query fails, the return of [listOrphaned] leaves nothing
    behind: the process never dies of a send on a closed channel, and once
    the function has returned every goroutine has returned too and no
    further step of the call exists. *)
Theorem listOrphaned_nothing_left `{Externals} (k : Kubernetes)
    (state : manifest.List) (sched : list action) (s : system) :
  (∀ kind, kind ∈ kinds → ¬ fails k kind) →
  run k (known_of state) sched (spawn k state) = Some s →
  crashed s = false ∧
  (is_Some (result s) →
   Forall (λ g, g_pc g = Finished) (goroutines s) ∧
   ∀ a, step k (known_of state) a s = None).
Proof. exact (run_nothing_left k state sched s). Qed.

Lemma listOrphaned_nothing_left_witness :
  ∃ s,
    @run samples.X_cluster samples.k_cluster (known_of [samples.api])
         samples.in_turn (spawn samples.k_cluster [samples.api]) = Some s ∧
    crashed s = false ∧
    (is_Some (result s) →
     Forall (λ g, g_pc g = Finished) (goroutines s) ∧
     ∀ a, @step samples.X_cluster samples.k_cluster (known_of [samples.api])
            a s = None).
Proof.
  eexists. split; [vm_compute; reflexivity|].
  apply (@listOrphaned_nothing_left samples.X_cluster samples.k_cluster
           [samples.api] samples.in_turn).
  - intros kind _ [e He]. simpl in He. discriminate He.
  - vm_compute. reflexivity.
Defined.

(** ** Apply, over the result of the orphan detection *)

(** [Apply] returns whenever [listOrphaned] does, with the error of
    [listOrphaned] as its own.  When a query fails that error is not nil.
    When [Apply] returns nil, what it printed ends with the line ["orphan"]
    followed by the Identifiers of the orphans that [listOrphaned]
    returned, which are the live manifests that are not desired. *)
Theorem Apply_follows_listOrphaned `{Externals} (k : Kubernetes)
    (state : manifest.List) (opts : ApplyOpts) (sched : list action) :
  (Apply k state opts sched = None ↔ listOrphaned k state sched = None) ∧
  ∀ effs err, Apply k state opts sched = Some (effs, err) →
    ∃ list,
      listOrphaned k state sched = Some (list, err) ∧
      ((∃ kind, kind ∈ kinds ∧ fails k kind) → is_Some err) ∧
      (err = None →
       ∃ printed orphans,
         list = Some orphans ∧
         effs = printed ++ Print (OutLine "orphan")
                  :: (Print ∘ OutIdentifier ∘ Manifest_Identifier <$> orphans) ∧
         orphans ≡ₚ difference (live k) state).
Proof.
  split.
  - unfold Apply, listOrphaned.
    destruct (run _ _ _ _) as [s|]; simpl; [|done].
    destruct (result s) as [[list [e|]]|]; simpl; done.
  - intros effs err Happ.
    assert (Hlist : ∃ list s,
              listOrphaned k state sched = Some (list, err) ∧
              (err = None →
               effs = (Print <$> stdout s) ++ Print (OutLine "orphan")
                        :: (Print ∘ OutIdentifier ∘ Manifest_Identifier
                              <$> default [] list))).
    { revert Happ. unfold Apply, listOrphaned.
      destruct (run _ _ _ _) as [s|]; simpl; [|done].
      destruct (result s) as [[list [e|]]|]; simpl; [| |done].
      - intros [= <- <-]. exists list, s. done.
      - intros [= <- <-]. exists list, s. done. }
    destruct Hlist as (list & s & Hres & Heffs). exists list.
    split; [done|].
    destruct (listOrphaned_final _ _ _ _ Hres) as (s' & _ & _ & _ & [Fs Ff]).
    split.
    + intros Hfail. destruct (Ff Hfail) as (e & kind & [= _ ->] & _). eauto.
    + intros ->. destruct Fs as (_ & o & [= ->] & Hperm).
      { intros kind Hkin Hfail.
        destruct Ff as (e & kind' & [=] & _). eauto. }
      exists (Print <$> stdout s), o. split; [done|]. split; [|done].
      by rewrite (Heffs eq_refl).
Qed.

(** ** A larger desired state *)

Lemma filter_stronger {A} (P Q : A → Prop) `{∀ x, Decision (P x)}
    `{∀ x, Decision (Q x)} (l : list A) :
  (∀ x, Q x → P x) → filter Q l `sublist_of` filter P l.
Proof.
  intros HQP. induction l as [|x l IH]; [done|].
  rewrite !filter_cons. destruct (decide (Q x)) as [HQ|HQ].
  - rewrite decide_True by auto. by apply sublist_skip.
  - destruct (decide (P x)); [by apply sublist_cons|done].
Qed.

(** A desired state that names more never yields more orphans: when two
    calls over the same cluster both return a list and every Identifier of
    the first desired state is one of the second, the second list is
    contained in the first, counting repetitions. *)
Theorem listOrphaned_desired_grows `{Externals} (k : Kubernetes)
    (state1 state2 : manifest.List) (sched1 sched2 : list action)
    (orphans1 orphans2 : manifest.List) :
  (∀ id, id ∈ Manifest_Identifier <$> state1 →
         id ∈ Manifest_Identifier <$> state2) →
  listOrphaned k state1 sched1 = Some (Some orphans1, None) →
  listOrphaned k state2 sched2 = Some (Some orphans2, None) →
  orphans2 ⊆+ orphans1.
Proof.
  intros Hsub H1 H2.
  pose proof (returned_list_no_failure _ _ _ _ _ H1) as Hnf.
  destruct (listOrphaned_final _ _ _ _ H1) as (s1 & _ & _ & _ & [Fs1 _]).
  destruct (listOrphaned_final _ _ _ _ H2) as (s2 & _ & _ & _ & [Fs2 _]).
  destruct (Fs1 Hnf) as (_ & o1 & [= <-] & ->).
  destruct (Fs2 Hnf) as (_ & o2 & [= <-] & ->).
  apply sublist_submseteq, filter_stronger. intros m Hm Hin. apply Hm, Hsub, Hin.
Qed.

Lemma listOrphaned_desired_grows_witness :
  [samples.worker; samples.worker'] ⊆+ [samples.api; samples.worker; samples.worker'].
Proof.
  apply (@listOrphaned_desired_grows samples.X_cluster samples.k_cluster
           [] [samples.api] samples.in_turn samples.in_turn
           [samples.api; samples.worker; samples.worker']
           [samples.worker; samples.worker']).
  - intros id Hin. by apply elem_of_nil in Hin.
  - vm_compute. reflexivity.
  - vm_compute. reflexivity.
Defined.

(** ** The order of the orphan list *)

Lemma filter_finished_update (l1 l2 : list goroutine) (g g' : goroutine) :
  ¬ finished g → g_kind g' = g_kind g →
  (¬ finished g' →
   g_kind <$> filter finished (l1 ++ g' :: l2)
   = g_kind <$> filter finished (l1 ++ g :: l2)) ∧
  (finished g' →
   g_kind <$> filter finished (l1 ++ g' :: l2)
   ≡ₚ (g_kind <$> filter finished (l1 ++ g :: l2)) ++ [g_kind g]).
Proof.
  intros Hg Hkind. rewrite !filter_app, !filter_cons.
  rewrite (decide_False (P := finished g)) by done. split; intros Hg'.
  - by rewrite decide_False.
  - rewrite decide_True by done. rewrite !fmap_app, fmap_cons, Hkind.
    rewrite <- app_assoc. apply Permutation_app_head.
    rewrite <- Permutation_cons_append. done.
Qed.

Lemma run_arrivals `{Externals} (k : Kubernetes) (state : manifest.List)
    (sched : list action) (s s' : system) :
  inv k state s →
  run k (known_of state) sched s = Some s' →
  received k (known_of state) sched s
  = (λ kind, (answer k kind).1) <$> arrivals k (known_of state) sched s ∧
  g_kind <$> filter finished (goroutines s')
  ≡ₚ (g_kind <$> filter finished (goroutines s))
     ++ arrivals k (known_of state) sched s.
Proof.
  revert s. induction sched as [|a sched IH]; intros s Hinv Hrun;
    simpl in Hrun |- *.
  - injection Hrun as <-. by rewrite app_nil_r.
  - destruct (step k (known_of state) a s) as [s1|] eqn:Hstep; [|done].
    simpl in Hrun.
    destruct (IH s1) as [-> ->]; [by eapply step_inv|done|].
    pose proof (inv_pc _ _ _ Hinv) as Hp. rewrite Forall_forall in Hp.
    apply step_cases in Hstep as [_ Hstep].
    assert (Hupd : ∀ j g g',
              goroutines s !! j = Some g →
              goroutines s1 = <[j := g']> (goroutines s) →
              ¬ finished g → g_kind g' = g_kind g →
              (¬ finished g' →
               g_kind <$> filter finished (goroutines s1)
               = g_kind <$> filter finished (goroutines s)) ∧
              (finished g' →
               g_kind <$> filter finished (goroutines s1)
               ≡ₚ (g_kind <$> filter finished (goroutines s)) ++ [g_kind g])).
    { intros j g g' Hj Hs1 Hg Hkind.
      destruct (goroutine_split _ _ _ Hj) as (l1 & l2 & Hgs & Hins).
      rewrite Hs1, Hins, Hgs. by apply filter_finished_update. }
    destruct a as [j|j|j| |j].
    + destruct Hstep as (g & Hj & Hpc & Hs1 & _). simpl. split; [done|].
      assert (Hg : ¬ finished g) by (unfold finished; rewrite Hpc; by intros []).
      destruct (Hupd j g _ Hj Hs1 Hg eq_refl) as [Hsame _].
      rewrite Hsame; [done|].
      destruct (query_pending k g) as [Hpend _]. revert Hpend.
      unfold pending, finished. simpl.
      destruct (parallelGetByLabels _ _ _); tauto.
    + destruct Hstep as (g & list & Hj & Hpc & _ & _ & Hs1 & _).
      rewrite Hj. simpl. rewrite Hpc. simpl. split.
      * f_equal. specialize (Hp g (list_elem_of_lookup_2 _ _ _ Hj)).
        unfold pc_ok in Hp. by rewrite Hpc in Hp.
      * assert (Hg : ¬ finished g) by (unfold finished; rewrite Hpc; by intros []).
        destruct (Hupd j g _ Hj Hs1 Hg eq_refl) as [_ Hnew].
        rewrite Hnew by done. by rewrite <- app_assoc.
    + destruct Hstep as (g & l & e & Hj & Hpc & _ & _ & Hs1 & _).
      simpl. split; [done|].
      assert (Hg : ¬ finished g) by (unfold finished; rewrite Hpc; by intros []).
      destruct (Hupd j g _ Hj Hs1 Hg eq_refl) as [Hsame _].
      rewrite Hsame; [done|]. by intros [].
    + destruct Hstep as (_ & _ & -> & _). simpl. done.
    + destruct Hstep as (g & Hj & Hpend & _ & _ & Hs1 & _).
      simpl. split; [done|].
      assert (Hg : ¬ finished g).
      { revert Hpend. unfold pending, finished. destruct (g_pc g); tauto. }
      destruct (Hupd j g _ Hj Hs1 Hg eq_refl) as [Hsame _].
      rewrite Hsame; [done|]. by intros [].
Qed.

(** When no query fails, the returned list is made of one block per kind:
    for some order of the 21 kinds, the order in which their lists arrived,
    it is the not-desired manifests of the first kind's answer, in the order
    of that answer, followed by those of the second kind's answer, and so
    on. *)
Theorem listOrphaned_blocks `{Externals} (k : Kubernetes)
    (state : manifest.List) (sched : list action)
    (res : option manifest.List * option error) :
  (∀ kind, kind ∈ kinds → ¬ fails k kind) →
  listOrphaned k state sched = Some res →
  let order := arrivals k (known_of state) sched (spawn k state) in
  order ≡ₚ kinds ∧
  res = (Some (concat ((λ kind, difference (answer k kind).1 state) <$> order)),
         None).
Proof.
  intros Hnf Hres order.
  destruct (listOrphaned_final _ _ _ _ Hres) as (s & Hrun & Hr & Hinv & [Fs _]).
  destruct (Fs Hnf) as (_ & o & -> & _).
  destruct (run_arrivals k state sched _ _ (inv_spawn k state) Hrun)
    as [Hrec Harr].
  destruct (run_nothing_left k state sched s Hnf Hrun) as [_ Hfin].
  destruct Hfin as [Hfin _]; [by eauto|].
  split.
  - unfold order. rewrite <- (inv_kinds _ _ _ Hinv).
    assert (Hnone : ∀ gs,
              Forall (λ g, g_pc g = AtQuery ∧ g_envName g = envName k) gs →
              filter finished gs = []).
    { intros gs Hall. induction Hall as [|g gs [Hg _] _ IH]; [done|].
      rewrite filter_cons_False; [done|]. unfold finished. rewrite Hg.
      by intros []. }
    assert (Hall : ∀ gs,
              Forall (λ g, g_pc g = Finished) gs → filter finished gs = gs).
    { intros gs Hgs. induction Hgs as [|g gs Hg _ IH]; [done|].
      rewrite filter_cons_True, IH; [done|]. unfold finished. by rewrite Hg. }
    rewrite (Hnone _ (spawn_all_at_query k state)) in Harr.
    simpl in Harr. rewrite <- Harr. by rewrite (Hall _ Hfin).
  - destruct (run_arrival_order k state sched _ Hres) as [_ Ho].
    rewrite (Ho o eq_refl), Hrec, <- list_fmap_compose. done.
Qed.

Lemma listOrphaned_blocks_witness :
  let order := @arrivals samples.X_cluster samples.k_cluster
                 (known_of [samples.api]) samples.in_turn
                 (spawn samples.k_cluster [samples.api]) in
  order ≡ₚ kinds ∧
  (Some [samples.worker; samples.worker'], @None error)
  = (Some (concat ((λ kind,
                      difference
                        (@answer samples.X_cluster samples.k_cluster kind).1
                        [samples.api]) <$> order)),
     None).
Proof.
  apply (@listOrphaned_blocks samples.X_cluster samples.k_cluster
           [samples.api] samples.in_turn
           (Some [samples.worker; samples.worker'], None)).
  - intros kind _ [e He]. simpl in He. discriminate He.
  - vm_compute. reflexivity.
Defined.

(** ** Progress of the call *)


